(** * binja: byte-pattern search over files read in chunks

    A shallow embedding of [main.go]: [findPattern], [parsePattern] and the
    per-file scanning loop of [main], followed by the properties of the
    program's specification.

    Conventions.
    - A Go [byte] is an 8-bit [ascii]; a [[]byte] and a [string] are both
      [list byte] (a Go string is an immutable byte sequence).
    - [int64] values are [Z].  Inside [findPattern] every intermediate value
      lies between [-len] and [len] of a slice, and a Go slice is never longer
      than the address space allows, so no operation there can wrap.  The file
      offset accumulated by [main] has no such bound and is wrapped
      explicitly with [wrap64].
    - A run-time panic (index or slice bounds out of range) is [None]. *)

From Stdlib Require Import ZArith List Bool Ascii String Lia Sorted.
Import ListNotations.
Open Scope Z_scope.

Definition byte := ascii.

Definition str (s : string) : list byte := list_ascii_of_string s.

Definition len {A : Type} (s : list A) : Z := Z.of_nat (List.length s).

(** ** Go primitives used by the program *)

Module Go.

(** The slice expression [s[lo:hi]]; out-of-range bounds panic. *)
Definition slice {A : Type} (s : list A) (lo hi : Z) : option (list A) :=
  if (0 <=? lo) && (lo <=? hi) && (hi <=? len s)
  then Some (firstn (Z.to_nat (hi - lo)) (skipn (Z.to_nat lo) s))
  else None.

(** The index expression [s[i]]. *)
Definition index {A : Type} (s : list A) (i : Z) : option A :=
  if (0 <=? i) && (i <? len s) then nth_error s (Z.to_nat i) else None.

(** The assignment [s[i] = v]. *)
Fixpoint set_nth {A : Type} (s : list A) (n : nat) (v : A) : list A :=
  match s, n with
  | [], _ => []
  | _ :: s', O => v :: s'
  | x :: s', S n' => x :: set_nth s' n' v
  end.

Definition assign {A : Type} (s : list A) (i : Z) (v : A) : option (list A) :=
  if (0 <=? i) && (i <? len s) then Some (set_nth s (Z.to_nat i) v) else None.

(** [bytes.Equal]. *)
Fixpoint bytes_Equal (a b : list byte) : bool :=
  match a, b with
  | [], [] => true
  | x :: a', y :: b' => Ascii.eqb x y && bytes_Equal a' b'
  | _, _ => false
  end.

(** Two's-complement wrap-around of [int64] arithmetic. *)
Definition wrap64 (z : Z) : Z := (z + 2 ^ 63) mod 2 ^ 64 - 2 ^ 63.

End Go.

(** ** [findPattern] (main.go, lines 14-26) *)

Section FindPattern.

Variables data pattern : list byte.

Let dataLen := len data.
Let patternLen := len pattern.

(** The body of the [for] loop, run for the [n] consecutive values
    [i], [i+1], ... of the loop variable. *)
Fixpoint findLoop (n : nat) (i : Z) (positions : list Z) : option (list Z) :=
  match n with
  | O => Some positions
  | S n' =>
      match Go.slice data i (i + patternLen) with
      | None => None
      | Some window =>
          findLoop n' (i + 1)
            (if Go.bytes_Equal window pattern then positions ++ [i]
             else positions)
      end
  end.

(** [for i := int64(0); i <= dataLen-patternLen; i++] visits exactly the
    [dataLen - patternLen + 1] values [0 .. dataLen-patternLen] when that
    bound is non-negative, and none otherwise. *)
Definition findPattern : option (list Z) :=
  findLoop (Z.to_nat (dataLen - patternLen + 1)) 0 [].

End FindPattern.


(** ** [encoding/hex] *)

Module hex.

Local Open Scope N_scope.

Inductive error : Type :=
| InvalidByteError (c : byte)
| ErrLength.

(** [reverseHexTable]: the value of a hexadecimal digit, [0xff] for every
    other byte. *)
Definition reverseHexTable (c : byte) : N :=
  let n := N_of_ascii c in
  if (48 <=? n) && (n <=? 57) then n - 48
  else if (97 <=? n) && (n <=? 102) then n - 97 + 10
  else if (65 <=? n) && (n <=? 70) then n - 65 + 10
  else 0xff.

(** [Decode]: two source bytes per destination byte; [dst] holds the bytes
    written so far, and is what [DecodeString] returns as [dst[:n]], also
    next to an error. *)
Fixpoint Decode (dst src : list byte) : list byte * option error :=
  match src with
  | p :: q :: src' =>
      let a := reverseHexTable p in
      let b := reverseHexTable q in
      if 0x0f <? a then (dst, Some (InvalidByteError p))
      else if 0x0f <? b then (dst, Some (InvalidByteError q))
      else Decode (dst ++ [ascii_of_N (N.lor (N.shiftl a 4) b)]) src'
  | [p] =>
      if 0x0f <? reverseHexTable p then (dst, Some (InvalidByteError p))
      else (dst, Some ErrLength)
  | [] => (dst, None)
  end%N.

Definition DecodeString (s : list byte) : list byte * option error :=
  Decode [] s.

Definition hextable : list byte := str "0123456789abcdef".

Definition hexdigit (k : N) : byte := nth (N.to_nat k) hextable zero.

(** [EncodeToString]: [hextable[v>>4]] then [hextable[v&0x0f]] for each
    byte [v]. *)
Definition EncodeToString (src : list byte) : list byte :=
  flat_map (fun v => [hexdigit (N.shiftr (N_of_ascii v) 4);
                      hexdigit (N.land (N_of_ascii v) 0x0f)]) src.

End hex.

(** ** [unicode/utf8] and [unicode] *)

Module utf8.

Local Open Scope N_scope.

Definition rune := N.

Definition RuneError : rune := 0xFFFD%N.

Definition between (lo hi c : N) : bool := ((lo <=? c) && (c <=? hi))%N.

(** The table [first] together with [acceptRanges]: for a leading byte, the
    length of the sequence and the range allowed for its second byte. *)
Definition first (s0 : N) : option (nat * N * N) :=
  if between 0xC2 0xDF s0 then Some (2%nat, 0x80, 0xBF)
  else if (s0 =? 0xE0) then Some (3%nat, 0xA0, 0xBF)
  else if between 0xE1 0xEC s0 then Some (3%nat, 0x80, 0xBF)
  else if (s0 =? 0xED) then Some (3%nat, 0x80, 0x9F)
  else if between 0xEE 0xEF s0 then Some (3%nat, 0x80, 0xBF)
  else if (s0 =? 0xF0) then Some (4%nat, 0x90, 0xBF)
  else if between 0xF1 0xF3 s0 then Some (4%nat, 0x80, 0xBF)
  else if (s0 =? 0xF4) then Some (4%nat, 0x80, 0x8F)
  else None.

Definition bits (mask : N) (c : N) (shift : N) : N :=
  N.shiftl (N.land c mask) shift.

(** [DecodeRuneInString], also what [range] over a string does: the rune at
    the head of [s] and its width in bytes; an invalid or truncated
    sequence is [RuneError] of width 1. *)
Definition DecodeRune (s : list byte) : rune * nat :=
  match s with
  | [] => (RuneError, 0%nat)
  | c0 :: t =>
      let s0 := N_of_ascii c0 in
      if (s0 <? 0x80)%N then (s0, 1%nat)
      else
        match first s0 with
        | None => (RuneError, 1%nat)
        | Some (sz, lo, hi) =>
            match sz, t with
            | 2%nat, c1 :: _ =>
                let s1 := N_of_ascii c1 in
                if negb (between lo hi s1) then (RuneError, 1%nat)
                else (N.lor (bits 0x1F s0 6) (bits 0x3F s1 0), 2%nat)
            | 3%nat, c1 :: c2 :: _ =>
                let s1 := N_of_ascii c1 in
                let s2 := N_of_ascii c2 in
                if negb (between lo hi s1) then (RuneError, 1%nat)
                else if negb (between 0x80 0xBF s2) then (RuneError, 1%nat)
                else (N.lor (bits 0x0F s0 12)
                        (N.lor (bits 0x3F s1 6) (bits 0x3F s2 0)), 3%nat)
            | 4%nat, c1 :: c2 :: c3 :: _ =>
                let s1 := N_of_ascii c1 in
                let s2 := N_of_ascii c2 in
                let s3 := N_of_ascii c3 in
                if negb (between lo hi s1) then (RuneError, 1%nat)
                else if negb (between 0x80 0xBF s2) then (RuneError, 1%nat)
                else if negb (between 0x80 0xBF s3) then (RuneError, 1%nat)
                else (N.lor (bits 0x07 s0 18)
                        (N.lor (bits 0x3F s1 12)
                           (N.lor (bits 0x3F s2 6) (bits 0x3F s3 0))), 4%nat)
            | _, _ => (RuneError, 1%nat)
            end
        end
  end.

Definition tx (r : N) (shift : N) : byte :=
  ascii_of_N (N.lor 0x80 (N.land (N.shiftr r shift) 0x3F)).

(** [AppendRune] on an empty slice: the UTF-8 encoding of a rune
    (the bytes of [string(r)]). *)
Definition EncodeRune (r : rune) : list byte :=
  if (r <=? 0x7F)%N then [ascii_of_N r]
  else if (r <=? 0x7FF)%N then
    [ascii_of_N (N.lor 0xC0 (N.shiftr r 6)); tx r 0]
  else if (0x10FFFF <? r)%N || between 0xD800 0xDFFF r then
    [ascii_of_N (N.lor 0xE0 (N.shiftr RuneError 12));
     tx RuneError 6; tx RuneError 0]
  else if (r <=? 0xFFFF)%N then
    [ascii_of_N (N.lor 0xE0 (N.shiftr r 12)); tx r 6; tx r 0]
  else
    [ascii_of_N (N.lor 0xF0 (N.shiftr r 18)); tx r 12; tx r 6; tx r 0].

Definition EncodeRunes (rs : list rune) : list byte :=
  flat_map EncodeRune rs.

End utf8.

Module unicode.

Local Open Scope N_scope.

(** [unicode.IsSpace]: the Latin-1 switch, then the [White_Space] range
    table. *)
Definition IsSpace (r : utf8.rune) : bool :=
  if (r <=? 0xFF)%N then
    (r =? 9)%N || (r =? 10)%N || (r =? 11)%N || (r =? 12)%N || (r =? 13)%N
    || (r =? 32)%N || (r =? 0x85)%N || (r =? 0xA0)%N
  else
    (r =? 0x1680)%N || utf8.between 0x2000 0x200a r
    || utf8.between 0x2028 0x2029 r || (r =? 0x202f)%N || (r =? 0x205f)%N
    || (r =? 0x3000)%N.

End unicode.


(** ** [strings] *)

Module strings.

(** [FieldsFunc]: one pass over the runes of [s].  [start] is the field
    being collected ([None] for Go's negative [start]); [skip] counts the
    bytes still belonging to the rune decoded last, over which [range]
    does not stop. *)
Fixpoint fieldsLoop (f : utf8.rune -> bool) (s : list byte) (skip : nat)
    (start : option (list byte)) (spans : list (list byte))
    : list (list byte) :=
  match s with
  | [] =>
      match start with
      | Some field => spans ++ [field]
      | None => spans
      end
  | c :: s' =>
      match skip with
      | S k =>
          fieldsLoop f s' k
            (match start with
             | Some field => Some (field ++ [c])
             | None => None
             end) spans
      | O =>
          let (r, width) := utf8.DecodeRune s in
          if f r then
            match start with
            | Some field => fieldsLoop f s' (pred width) None (spans ++ [field])
            | None => fieldsLoop f s' (pred width) None spans
            end
          else
            match start with
            | Some field => fieldsLoop f s' (pred width) (Some (field ++ [c])) spans
            | None => fieldsLoop f s' (pred width) (Some [c]) spans
            end
      end
  end.

Definition FieldsFunc (s : list byte) (f : utf8.rune -> bool)
    : list (list byte) :=
  fieldsLoop f s 0 None [].

(** [Fields] splits around runs of white space as defined by
    [unicode.IsSpace]; its ASCII fast path computes the same fields. *)
Definition Fields (s : list byte) : list (list byte) :=
  FieldsFunc s unicode.IsSpace.

Fixpoint HasPrefix (s prefix : list byte) : bool :=
  match prefix, s with
  | [], _ => true
  | p :: prefix', c :: s' => Ascii.eqb c p && HasPrefix s' prefix'
  | _ :: _, [] => false
  end.

(** [TrimPrefix]: [s[len(prefix):]] when [s] starts with [prefix]. *)
Definition TrimPrefix (s prefix : list byte) : list byte :=
  if HasPrefix s prefix then skipn (List.length prefix) s else s.

End strings.

(** ** [parsePattern] (main.go, lines 28-50) *)

Inductive error : Type :=
| InvalidByteFormat (part : list byte).

(** [make([]byte, n)]. *)
Definition make (n : nat) : list byte := repeat zero n.

(** The loop over [parts]; [i] is the index of [part]. *)
Fixpoint parseParts (parts : list (list byte)) (i : Z) (pattern : list byte)
    : option (list byte * option error) :=
  match parts with
  | [] => Some (pattern, None)
  | part :: parts' =>
      let part := strings.TrimPrefix part (str "0x") in
      let (byteValue, err) := hex.DecodeString part in
      match err with
      | Some _ => Some ([], Some (InvalidByteFormat part))
      | None =>
          if negb (len byteValue =? 1)
          then Some ([], Some (InvalidByteFormat part))
          else
            match Go.index byteValue 0 with
            | None => None
            | Some v =>
                match Go.assign pattern i v with
                | None => None
                | Some pattern' => parseParts parts' (i + 1) pattern'
                end
            end
      end
  end.

Definition parsePattern (input : list byte)
    : option (list byte * option error) :=
  let (pattern, err) := hex.DecodeString input in
  match err with
  | None => Some (pattern, None)
  | Some _ =>
      let parts := strings.Fields input in
      parseParts parts 0 (make (List.length parts))
  end.


(** ** The file loop of [main] (main.go, lines 87-135) *)

(** The [error] returned by [file.Read]. *)
Inductive ReadErr : Type :=
| ErrNil
| ErrEOF
| ErrOther.

(** One call [n, err := file.Read(buf)]: [rd_data] is [buf[:n]]. *)
Record ReadResult : Type := mkRead {
  rd_data : list byte;
  rd_err : ReadErr
}.

(** What [os.Stat] and [os.Open] find at a path.  An open file is the
    sequence of results its successive [Read] calls return; once that
    sequence is used up, [Read] returns [0, io.EOF]. *)
Inductive FileEntry : Type :=
| NotExist
| OpenFails
| Readable (reads : list ReadResult).

Definition FileSystem := list byte -> FileEntry.

(** What the program does that can be observed: the lines it prints and
    the files it opens and closes. *)
Inductive Event : Type :=
| PrintSearching (filePath : list byte)
| PrintNotExist (filePath : list byte)
| PrintOpenError (filePath : list byte)
| SysOpen (fd : nat)
| PrintReadError (filePath : list byte)
| PrintFound (filePath : list byte) (offset : Z)
| PrintCompleted (filePath : list byte)
| PrintSearchComplete
| WaitEnter
| SysClose (fd : nat).

(** The state of [main]: the events so far, the calls registered with
    [defer] (most recent first) and the next free file descriptor. *)
Record State : Type := mkState {
  trace : list Event;
  deferred : list nat;
  nextFd : nat
}.

Definition initial : State := mkState [] [] 3.

(** State with panics. *)
Definition M (A : Type) : Type := State -> option (A * State).

Definition ret {A : Type} (a : A) : M A := fun st => Some (a, st).

Definition bind {A B : Type} (c : M A) (k : A -> M B) : M B :=
  fun st =>
    match c st with
    | Some (a, st') => k a st'
    | None => None
    end.

Notation "x <- c ;; k" := (bind c (fun x => k))
  (at level 61, c at next level, right associativity).
Notation "c ;; k" := (bind c (fun _ => k))
  (at level 61, right associativity).

Definition emit (e : Event) : M unit :=
  fun st => Some (tt, mkState (trace st ++ [e]) (deferred st) (nextFd st)).

(** A pure computation that may panic. *)
Definition lift {A : Type} (o : option A) : M A :=
  fun st =>
    match o with
    | Some a => Some (a, st)
    | None => None
    end.

(** A successful [os.Open]. *)
Definition osOpen : M nat :=
  fun st =>
    Some (nextFd st,
          mkState (trace st ++ [SysOpen (nextFd st)]) (deferred st)
            (S (nextFd st))).

(** [defer file.Close()]. *)
Definition deferClose (fd : nat) : M unit :=
  fun st => Some (tt, mkState (trace st) (fd :: deferred st) (nextFd st)).

(** The deferred calls run when [main] returns, last registered first. *)
Definition runDeferred : M unit :=
  fun st =>
    Some (tt, mkState (trace st ++ map SysClose (deferred st)) []
                (nextFd st)).

Definition chunkSize : Z := 4096.

Section Scan.

Variable fs : FileSystem.
Variable pattern : list byte.

(** [for _, pos := range positions { fmt.Printf(...) }]. *)
Fixpoint printPositions (filePath : list byte) (offset : Z)
    (positions : list Z) : M unit :=
  match positions with
  | [] => ret tt
  | pos :: positions' =>
      emit (PrintFound filePath (Go.wrap64 (offset + pos)));;
      printPositions filePath offset positions'
  end.

(** The chunk loop of one file (lines 109-128); [reads] are the results
    the remaining [Read] calls will return. *)
Fixpoint readLoop (filePath : list byte) (offset : Z)
    (reads : list ReadResult) : M unit :=
  match reads with
  | [] => ret tt
  | mkRead chunk err :: reads' =>
      match err with
      | ErrOther => emit (PrintReadError filePath)
      | _ =>
          if len chunk =? 0 then ret tt
          else
            positions <- lift (findPattern chunk pattern);;
            printPositions filePath offset positions;;
            readLoop filePath (Go.wrap64 (offset + len chunk)) reads'
      end
  end.

(** One iteration of the loop over [files] (lines 88-130). *)
Definition searchFile (filePath : list byte) : M unit :=
  emit (PrintSearching filePath);;
  match fs filePath with
  | NotExist => emit (PrintNotExist filePath)
  | OpenFails => emit (PrintOpenError filePath)
  | Readable reads =>
      fd <- osOpen;;
      deferClose fd;;
      readLoop filePath 0 reads;;
      emit (PrintCompleted filePath)
  end.

Fixpoint searchFiles (files : list (list byte)) : M unit :=
  match files with
  | [] => ret tt
  | filePath :: files' => searchFile filePath;; searchFiles files'
  end.

(** Lines 87-135: the loop, the closing prompt, and the return of
    [main]. *)
Definition mainLoop (files : list (list byte)) : M unit :=
  searchFiles files;;
  emit PrintSearchComplete;;
  emit WaitEnter;;
  runDeferred.

End Scan.


(** * Vocabulary of the specification *)

(** [data[i:i+len(pattern)] == pattern], false where the window does not
    fit. *)
Definition matchAt (data pattern : list byte) (i : Z) : bool :=
  match Go.slice data i (i + len pattern) with
  | Some window => Go.bytes_Equal window pattern
  | None => false
  end.

(** The [n] consecutive integers from [i]. *)
Fixpoint zrange (i : Z) (n : nat) : list Z :=
  match n with
  | O => []
  | S n' => i :: zrange (i + 1) n'
  end.

Definition xAA : byte := ascii_of_N 0xAA.

(** A hexadecimal digit, either case. *)
Definition isHexDigit (c : byte) : bool :=
  existsb (Ascii.eqb c) (str "0123456789abcdefABCDEF").

(** A contiguous hexadecimal string: hexadecimal digits only, an even
    number of them. *)
Definition isHexString (s : list byte) : bool :=
  Nat.even (List.length s) && forallb isHexDigit s.

(** Exactly two hexadecimal digits. *)
Definition isHexByte (s : list byte) : bool :=
  match s with
  | [a; b] => isHexDigit a && isHexDigit b
  | _ => false
  end.

(** The byte a token of the tokenized mode stands for, if any. *)
Definition partByte (part : list byte) : option byte :=
  match hex.DecodeString (strings.TrimPrefix part (str "0x")) with
  | ([v], None) => Some v
  | _ => None
  end.

(** The positions [findPattern] returns. *)
Definition matches (data pattern : list byte) : list Z :=
  filter (matchAt data pattern)
    (zrange 0 (Z.to_nat (len data - len pattern + 1))).

(** The state after some more events. *)
Definition addTrace (st : State) (evs : list Event) : State :=
  mkState (trace st ++ evs) (deferred st) (nextFd st).

(** The lines printed by the chunk loop of one file, started with the
    counter at [offset]. *)
Fixpoint scanEvents (pattern filePath : list byte) (offset : Z)
    (reads : list ReadResult) : list Event :=
  match reads with
  | [] => []
  | mkRead chunk err :: reads' =>
      match err with
      | ErrOther => [PrintReadError filePath]
      | _ =>
          if len chunk =? 0 then []
          else
            map (fun pos => PrintFound filePath (Go.wrap64 (offset + pos)))
              (matches chunk pattern)
            ++ scanEvents pattern filePath (Go.wrap64 (offset + len chunk))
                 reads'
      end
  end.

(** The chunks that get searched: those read before the first read error
    or empty read. *)
Fixpoint processed (reads : list ReadResult) : list (list byte) :=
  match reads with
  | [] => []
  | mkRead chunk err :: reads' =>
      match err with
      | ErrOther => []
      | _ => if len chunk =? 0 then [] else chunk :: processed reads'
      end
  end.

(** The events of one file of the batch, opened as descriptor [fd]. *)
Definition fileEvents (fs : FileSystem) (pattern filePath : list byte)
    (fd : nat) : list Event :=
  PrintSearching filePath ::
  match fs filePath with
  | NotExist => [PrintNotExist filePath]
  | OpenFails => [PrintOpenError filePath]
  | Readable reads =>
      SysOpen fd :: scanEvents pattern filePath 0 reads
      ++ [PrintCompleted filePath]
  end.

Definition opens (fs : FileSystem) (filePath : list byte) : bool :=
  match fs filePath with
  | Readable _ => true
  | _ => false
  end.

(** The events of a batch whose first opened file gets descriptor [fd],
    and the descriptors it opens. *)
Fixpoint batchEvents (fs : FileSystem) (pattern : list byte)
    (files : list (list byte)) (fd : nat) : list Event :=
  match files with
  | [] => []
  | filePath :: files' =>
      fileEvents fs pattern filePath fd
      ++ batchEvents fs pattern files'
           (if opens fs filePath then S fd else fd)
  end.

Fixpoint batchFds (fs : FileSystem) (files : list (list byte)) (fd : nat)
    : list nat :=
  match files with
  | [] => []
  | filePath :: files' =>
      if opens fs filePath then fd :: batchFds fs files' (S fd)
      else batchFds fs files' fd
  end.

(** The whole file, as the concatenation of what the reads return. *)
Definition content (reads : list ReadResult) : list byte :=
  List.concat (map rd_data reads).

(** Every read returns a full chunk of [chunkSize] bytes, except that the
    last may return fewer; none fails. *)
Fixpoint fullChunks (reads : list ReadResult) : bool :=
  match reads with
  | [] => true
  | mkRead chunk err :: reads' =>
      match err with
      | ErrOther => false
      | _ =>
          (0 <? len chunk) && (len chunk <=? chunkSize)
          && match reads' with
             | [] => true
             | _ :: _ => (len chunk =? chunkSize) && fullChunks reads'
             end
      end
  end.

(** A batch of two files: reading ["bad"] fails after its first chunk,
    ["good"] is read to its end. *)
Definition twoFiles : FileSystem :=
  fun filePath =>
    if Go.bytes_Equal filePath (str "bad") then
      Readable [mkRead (str "..ab") ErrNil; mkRead [] ErrOther;
                mkRead (str "ab") ErrNil]
    else if Go.bytes_Equal filePath (str "good") then
      Readable [mkRead (str "ab.ab") ErrNil]
    else NotExist.

(** A token of the tokenized mode: two characters, with or without the
    ["0x"] prefix. *)
Record Token : Type := mkToken {
  prefixed : bool;
  hi : byte;
  lo : byte
}.

Definition tokenText (t : Token) : list byte :=
  (if prefixed t then str "0x" else []) ++ [hi t; lo t].

(** The byte whose two hexadecimal digits are [hi] and [lo]. *)
Definition tokenByte (t : Token) : byte :=
  ascii_of_N (N.lor (N.shiftl (hex.reverseHexTable (hi t)) 4)
                (hex.reverseHexTable (lo t))).

Definition validToken (t : Token) : bool :=
  isHexDigit (hi t) && isHexDigit (lo t).

(** A line of tokens, each followed by the white space [ws] given with
    it. *)
Fixpoint line (items : list (Token * list utf8.rune)) : list byte :=
  match items with
  | [] => []
  | (t, ws) :: items' => tokenText t ++ utf8.EncodeRunes ws ++ line items'
  end.

(** The tokens are two hexadecimal digits each, what follows a token is
    white space only, and there is some between two tokens. *)
Fixpoint separated (items : list (Token * list utf8.rune)) : bool :=
  match items with
  | [] => true
  | (t, ws) :: items' =>
      validToken t && forallb unicode.IsSpace ws
      && match items' with
         | [] => true
         | _ :: _ =>
             negb (match ws with [] => true | _ :: _ => false end)
             && separated items'
         end
  end.

(** The runes for which [unicode.IsSpace] holds. *)
Definition spaceRunes : list utf8.rune :=
  [9; 10; 11; 12; 13; 32; 0x85; 0xA0; 0x1680;
   0x2000; 0x2001; 0x2002; 0x2003; 0x2004; 0x2005; 0x2006; 0x2007;
   0x2008; 0x2009; 0x200a; 0x2028; 0x2029; 0x202f; 0x205f; 0x3000]%N.

(** Case analysis over the 256 values of a byte. *)
Ltac each_byte c :=
  destruct c as [[] [] [] [] [] [] [] []]; vm_compute; try reflexivity.

(** * Further vocabulary *)

(** The offsets of the match lines of a trace, in the order printed. *)
Fixpoint foundOffsets (evs : list Event) : list Z :=
  match evs with
  | [] => []
  | PrintFound _ o :: evs' => o :: foundOffsets evs'
  | _ :: evs' => foundOffsets evs'
  end.

(** The descriptors opened, and those closed, in the order of the trace. *)
Fixpoint openedFds (evs : list Event) : list nat :=
  match evs with
  | [] => []
  | SysOpen fd :: evs' => fd :: openedFds evs'
  | _ :: evs' => openedFds evs'
  end.

Fixpoint closedFds (evs : list Event) : list nat :=
  match evs with
  | [] => []
  | SysClose fd :: evs' => fd :: closedFds evs'
  | _ :: evs' => closedFds evs'
  end.

(** The files announced by a "Searching" line, and those for which the
    "completed" line is printed. *)
Fixpoint announced (evs : list Event) : list (list byte) :=
  match evs with
  | [] => []
  | PrintSearching f :: evs' => f :: announced evs'
  | _ :: evs' => announced evs'
  end.

Fixpoint completed (evs : list Event) : list (list byte) :=
  match evs with
  | [] => []
  | PrintCompleted f :: evs' => f :: completed evs'
  | _ :: evs' => completed evs'
  end.

(** The offsets of the matches in a sequence of chunks, the first of
    which starts at [offset]. *)
Fixpoint chunkOffsets (pattern : list byte) (offset : Z)
    (chunks : list (list byte)) : list Z :=
  match chunks with
  | [] => []
  | chunk :: chunks' =>
      map (fun j => offset + j) (matches chunk pattern)
      ++ chunkOffsets pattern (offset + len chunk) chunks'
  end.

(** The events the chunk loop can produce. *)
Definition scanOnly (e : Event) : bool :=
  match e with
  | PrintFound _ _ | PrintReadError _ => true
  | _ => false
  end.

(** The upper-case form of an ASCII letter; other bytes are unchanged. *)
Definition upper (c : byte) : byte :=
  let n := N_of_ascii c in
  if ((97 <=? n) && (n <=? 122))%N then ascii_of_N (n - 32) else c.

(** The two characters of a token. *)
Definition digits (t : Token) : list byte := [hi t; lo t].

(** * The prompts of [main] (main.go, lines 52-85) *)

(** ** [strings]: trimming *)

Module trim.

Local Open Scope N_scope.

(** The table [asciiSpace]. *)
Definition asciiSpace (c : byte) : bool :=
  let n := N_of_ascii c in
  (n =? 9) || (n =? 10) || (n =? 11) || (n =? 12) || (n =? 13) || (n =? 32).

(** [utf8.RuneStart]: not a continuation byte. *)
Definition RuneStart (c : byte) : bool :=
  negb (N.land (N_of_ascii c) 0xC0 =? 0x80).

(** The number of bytes [DecodeLastRuneInString] hands to
    [DecodeRuneInString]: it steps back from the last byte to the nearest
    of the three bytes before it that can start a rune, and one byte
    further when none of them can.  [r] is the string reversed. *)
Definition lastWindow (r : list byte) : nat :=
  match r with
  | _ :: c1 :: r1 =>
      if RuneStart c1 then 2%nat
      else
        match r1 with
        | c2 :: r2 =>
            if RuneStart c2 then 3%nat
            else
              match r2 with
              | c3 :: _ => if RuneStart c3 then 4%nat else 5%nat
              | [] => 5%nat
              end
        | [] => 5%nat
        end
  | _ => 5%nat
  end.

(** [utf8.DecodeLastRuneInString] on the string whose reverse is [r]: the
    last rune and its width. *)
Definition DecodeLastRune (r : list byte) : utf8.rune * nat :=
  match r with
  | [] => (utf8.RuneError, 0%nat)
  | c :: _ =>
      if N_of_ascii c <? 0x80 then (N_of_ascii c, 1%nat)
      else
        let window := rev (firstn (lastWindow r) r) in
        let (rn, size) := utf8.DecodeRune window in
        if Nat.eqb size (List.length window) then (rn, size)
        else (utf8.RuneError, 1%nat)
  end.

(** [TrimLeftFunc]: the string from its first rune that does not satisfy
    [f]; [skip] counts the bytes left of the rune decoded last. *)
Fixpoint trimLeftLoop (f : utf8.rune -> bool) (s : list byte) (skip : nat)
    : list byte :=
  match s with
  | [] => []
  | _ :: s' =>
      match skip with
      | S k => trimLeftLoop f s' k
      | O =>
          let (rn, width) := utf8.DecodeRune s in
          if f rn then trimLeftLoop f s' (pred width) else s
      end
  end.

Definition TrimLeftFunc (s : list byte) (f : utf8.rune -> bool)
    : list byte :=
  trimLeftLoop f s 0.

(** [TrimRightFunc]: runes are decoded from the end while they satisfy
    [f]; the result ends with the first that does not, whose width is
    taken from a forward decoding when it is not ASCII.  [r] is the part
    not yet examined, reversed, and [t] the part examined. *)
Fixpoint trimRightLoop (f : utf8.rune -> bool) (r t : list byte)
    (skip : nat) : list byte :=
  match r with
  | [] => []
  | c :: r' =>
      match skip with
      | S k => trimRightLoop f r' (c :: t) k
      | O =>
          let (rn, size) := DecodeLastRune r in
          if f rn then trimRightLoop f r' (c :: t) (pred size)
          else
            let head := rev (skipn size r) in
            let tail := rev (firstn size r) ++ t in
            match tail with
            | [] => head
            | b :: _ =>
                if 0x80 <=? N_of_ascii b then
                  head ++ firstn (snd (utf8.DecodeRune tail)) tail
                else head ++ [b]
            end
      end
  end.

Definition TrimRightFunc (s : list byte) (f : utf8.rune -> bool)
    : list byte :=
  trimRightLoop f (rev s) [] 0.

Definition TrimFunc (s : list byte) (f : utf8.rune -> bool) : list byte :=
  TrimRightFunc (TrimLeftFunc s f) f.

(** The second loop of [TrimSpace], from the end of what the first loop
    left; [r] is that part reversed. *)
Fixpoint trimSpaceRight (r : list byte) : list byte :=
  match r with
  | [] => []
  | c :: r' =>
      if 0x80 <=? N_of_ascii c then TrimRightFunc (rev r) unicode.IsSpace
      else if asciiSpace c then trimSpaceRight r'
      else rev r
  end.

(** [strings.TrimSpace]: ASCII white space is skipped at both ends; the
    first byte that is not ASCII hands over to the rune-wise functions. *)
Fixpoint TrimSpace (s : list byte) : list byte :=
  match s with
  | [] => []
  | c :: s' =>
      if 0x80 <=? N_of_ascii c then TrimFunc s unicode.IsSpace
      else if asciiSpace c then TrimSpace s'
      else trimSpaceRight (rev s)
  end.

(** [trimLeftByte] and [trimRightByte]. *)
Fixpoint trimLeftByte (s : list byte) (c : byte) : list byte :=
  match s with
  | [] => []
  | x :: s' => if Ascii.eqb x c then trimLeftByte s' c else s
  end.

Definition trimRightByte (s : list byte) (c : byte) : list byte :=
  rev (trimLeftByte (rev s) c).

(** [strings.Trim(s, cutset)] for a cutset of the single ASCII byte
    [c]. *)
Definition TrimByte (s : list byte) (c : byte) : list byte :=
  trimLeftByte (trimRightByte s c) c.

End trim.

(** ** The prompts *)

(** The double quote character. *)
Definition quote : byte := ascii_of_N 34.

(** Lines 62-64: the quotes around each path are removed. *)
Definition trimQuotes (files : list (list byte)) : list (list byte) :=
  map (fun filePath => trim.TrimByte filePath quote) files.

Inductive PromptEvent : Type :=
| PrintPatternPrompt
| PrintInvalidPattern.

(** How the loop of lines 73-85 ends.  [Spins] stands for the loop
    running forever: at the end of the input every [ReadString] returns
    the empty string, so a rejected empty line would be rejected again
    and again. *)
Inductive PromptResult : Type :=
| Accepted (pattern : list byte) (out : list PromptEvent)
    (stdin : list (list byte))
| Spins (out : list PromptEvent)
| Panics.

(** The pattern prompt.  [stdin] holds what the successive calls
    [reader.ReadString('\n')] return: the lines still to come, each with
    its line end; after them every call returns the empty string. *)
Fixpoint promptLoop (stdin : list (list byte)) (out : list PromptEvent)
    : PromptResult :=
  match stdin with
  | [] =>
      match parsePattern (trim.TrimSpace []) with
      | None => Panics
      | Some (pattern, None) => Accepted pattern (out ++ [PrintPatternPrompt]) []
      | Some (_, Some _) =>
          Spins (out ++ [PrintPatternPrompt; PrintInvalidPattern])
      end
  | patternInput :: stdin' =>
      match parsePattern (trim.TrimSpace patternInput) with
      | None => Panics
      | Some (pattern, None) =>
          Accepted pattern (out ++ [PrintPatternPrompt]) stdin'
      | Some (_, Some _) =>
          promptLoop stdin' (out ++ [PrintPatternPrompt; PrintInvalidPattern])
      end
  end.

(** A line that [parsePattern] rejects once trimmed. *)
Definition rejected (patternInput : list byte) : bool :=
  match parsePattern (trim.TrimSpace patternInput) with
  | Some (_, Some _) => true
  | _ => false
  end.

(** An ASCII byte that is not white space. *)
Definition solid (c : byte) : bool :=
  (N_of_ascii c <? 0x80)%N && negb (trim.asciiSpace c).

(** A path with no double quote at either end. *)
Definition clean (filePath : list byte) : Prop :=
  hd_error filePath <> Some quote /\ hd_error (rev filePath) <> Some quote.

(** ** [main] as a whole *)




Section Main.

(** [filepath.SplitList] depends on the operating system (the list
    separator, and on Windows the treatment of quotes). *)
Variable SplitList : list byte -> list (list byte).
Variable fs : FileSystem.


End Main.

(** * Properties of [findPattern] *)

Lemma bytes_Equal_iff (a b : list byte) :
  Go.bytes_Equal a b = true <-> a = b.
Proof.
  revert b; induction a as [|x a IH]; intros [|y b]; simpl;
    try (split; [discriminate | congruence]); try tauto.
  rewrite andb_true_iff, Ascii.eqb_eq, IH.
  split; [intros [-> ->]; reflexivity | intros [= -> ->]; auto].
Qed.

Lemma slice_Some_iff {A : Type} (s w : list A) (lo hi : Z) :
  Go.slice s lo hi = Some w <->
  0 <= lo <= hi /\ hi <= len s /\
  w = firstn (Z.to_nat (hi - lo)) (skipn (Z.to_nat lo) s).
Proof.
  unfold Go.slice.
  destruct ((0 <=? lo) && (lo <=? hi) && (hi <=? len s)) eqn:E.
  - rewrite !andb_true_iff in E. destruct E as [[E1 E2] E3].
    split.
    + intros [= <-]. repeat split; lia.
    + intros (_ & _ & ->); reflexivity.
  - split; [discriminate|].
    intros (H1 & H2 & _).
    rewrite !andb_false_iff in E. lia.
Qed.

Lemma In_zrange (n : nat) (i x : Z) :
  In x (zrange i n) <-> i <= x < i + Z.of_nat n.
Proof.
  revert i; induction n as [|n IH]; intros i; simpl; [lia|].
  rewrite IH; lia.
Qed.

Lemma zrange_length (n : nat) (i : Z) : List.length (zrange i n) = n.
Proof.
  revert i; induction n as [|n IH]; intros i; simpl; auto.
Qed.

Lemma zrange_sorted (n : nat) (i : Z) : StronglySorted Z.lt (zrange i n).
Proof.
  revert i; induction n as [|n IH]; intros i; simpl; constructor; auto.
  apply Forall_forall; intros x Hx; apply In_zrange in Hx; lia.
Qed.

Lemma filter_sorted {A : Type} (R : A -> A -> Prop) (f : A -> bool)
    (l : list A) :
  StronglySorted R l -> StronglySorted R (filter f l).
Proof.
  induction 1 as [|a l Hs IH Hall]; simpl; [constructor|].
  destruct (f a); auto.
  constructor; auto.
  rewrite Forall_forall in *; intros x Hx.
  apply filter_In in Hx; apply Hall, Hx.
Qed.

Lemma findLoop_filter (data pattern : list byte) (n : nat) :
  forall (i : Z) (positions : list Z),
    0 <= i -> i + Z.of_nat n <= len data - len pattern + 1 ->
    findLoop data pattern n i positions =
    Some (positions ++ filter (matchAt data pattern) (zrange i n)).
Proof.
  induction n as [|n IH]; intros i positions Hi Hn; simpl.
  - now rewrite app_nil_r.
  - unfold matchAt.
    destruct (Go.slice data i (i + len pattern)) as [window|] eqn:E.
    + rewrite IH by lia.
      destruct (Go.bytes_Equal window pattern);
        [rewrite <- app_assoc|]; reflexivity.
    + exfalso.
      assert (H : Go.slice data i (i + len pattern) =
                  Some (firstn (Z.to_nat (i + len pattern - i))
                          (skipn (Z.to_nat i) data))).
      { apply slice_Some_iff. unfold len in *. repeat split; lia. }
      congruence.
Qed.

(** [findPattern] never panics: it returns the start positions, in
    increasing order, at which the window equals the pattern. *)
Lemma findPattern_filter (data pattern : list byte) :
  findPattern data pattern =
  Some (filter (matchAt data pattern)
          (zrange 0 (Z.to_nat (len data - len pattern + 1)))).
Proof.
  unfold findPattern.
  destruct (Z.to_nat (len data - len pattern + 1)) as [|n] eqn:E;
    [reflexivity|].
  rewrite findLoop_filter by lia. reflexivity.
Qed.

Lemma matchAt_iff (data pattern : list byte) (i : Z) :
  matchAt data pattern i = true <->
  Go.slice data i (i + len pattern) = Some pattern.
Proof.
  unfold matchAt.
  destruct (Go.slice data i (i + len pattern)) as [w|]; [|split; discriminate].
  rewrite bytes_Equal_iff. split; [congruence | intros [= ->]; reflexivity].
Qed.

Lemma In_findPattern (data pattern : list byte) (i : Z) :
  In i (filter (matchAt data pattern)
          (zrange 0 (Z.to_nat (len data - len pattern + 1)))) <->
  Go.slice data i (i + len pattern) = Some pattern.
Proof.
  rewrite filter_In, In_zrange, matchAt_iff. split; [tauto|].
  intros H; split; [|exact H].
  apply slice_Some_iff in H. lia.
Qed.

(** C1. For a non-empty pattern no longer than the data, [findPattern]
    returns, each once, exactly the indices [i] at which
    [data[i:i+len(pattern)]] equals the pattern; occurrences that overlap
    are all among them. *)
Theorem findPattern_exhaustive (data pattern : list byte) :
  pattern <> [] ->
  len pattern <= len data ->
  exists positions,
    findPattern data pattern = Some positions /\
    NoDup positions /\
    forall i, In i positions <->
              Go.slice data i (i + len pattern) = Some pattern.
Proof.
  intros _ _. eexists. split; [apply findPattern_filter|]. split.
  - apply NoDup_filter.
    generalize (zrange_sorted (Z.to_nat (len data - len pattern + 1)) 0).
    induction 1 as [|a l _ IH Hall]; constructor; auto.
    intros Hin. rewrite Forall_forall in Hall. specialize (Hall _ Hin). lia.
  - apply In_findPattern.
Qed.

(** The overlapping occurrences of [AA AA] in [AA AA AA]. *)
Lemma findPattern_exhaustive_witness :
  [xAA; xAA] <> [] /\ len [xAA; xAA] <= len [xAA; xAA; xAA] /\
  exists positions,
    findPattern [xAA; xAA; xAA] [xAA; xAA] = Some positions /\
    NoDup positions /\
    forall i, In i positions <->
              Go.slice [xAA; xAA; xAA] i (i + len [xAA; xAA]) = Some [xAA; xAA].
Proof.
  split; [discriminate|]. split; [vm_compute; discriminate|].
  apply (findPattern_exhaustive [xAA; xAA; xAA] [xAA; xAA]).
  - discriminate.
  - vm_compute; discriminate.
Defined.

Example findPattern_overlap :
  findPattern [xAA; xAA; xAA] [xAA; xAA] = Some [0; 1].
Proof. reflexivity. Qed.

(** C10. [findPattern] returns without a panic a strictly increasing list
    of positions between [0] and [len(data) - len(pattern)]; the list is
    empty when the pattern is longer than the data. *)
Theorem findPattern_sorted_in_range (data pattern : list byte) :
  exists positions,
    findPattern data pattern = Some positions /\
    StronglySorted Z.lt positions /\
    Forall (fun i => 0 <= i <= len data - len pattern) positions /\
    (len data < len pattern -> positions = []).
Proof.
  eexists. split; [apply findPattern_filter|]. split; [|split].
  - apply filter_sorted, zrange_sorted.
  - apply Forall_forall. intros i Hi.
    apply filter_In in Hi. destruct Hi as [Hi _].
    apply In_zrange in Hi. lia.
  - intros Hlt.
    replace (Z.to_nat (len data - len pattern + 1)) with O by lia.
    reflexivity.
Qed.

Lemma filter_all {A : Type} (f : A -> bool) (l : list A) :
  (forall x, In x l -> f x = true) -> filter f l = l.
Proof.
  induction l as [|a l IH]; simpl; intros H; [reflexivity|].
  rewrite (H a) by auto. f_equal. apply IH; auto.
Qed.

(** A zero-length pattern is found at every offset from [0] to
    [len(data)], both included. *)
Lemma findPattern_empty (data : list byte) :
  findPattern data [] = Some (zrange 0 (S (List.length data))).
Proof.
  rewrite findPattern_filter.
  replace (Z.to_nat (len data - len (@nil byte) + 1))
    with (S (List.length data)) by (unfold len; simpl; lia).
  rewrite filter_all; [reflexivity|].
  intros i Hi. apply In_zrange in Hi.
  apply matchAt_iff, slice_Some_iff.
  unfold len in *; simpl List.length.
  replace (i + Z.of_nat 0 - i) with 0 by lia.
  repeat split; lia.
Qed.

(** * Properties of [parsePattern] *)

(** ** Hex mode *)

Lemma isHexDigit_table (c : byte) :
  isHexDigit c = negb (0x0f <? hex.reverseHexTable c)%N.
Proof. each_byte c. Qed.

Lemma encode_decode_byte (v : byte) :
  let p := hex.hexdigit (N.shiftr (N_of_ascii v) 4) in
  let q := hex.hexdigit (N.land (N_of_ascii v) 0x0f) in
  (0x0f <? hex.reverseHexTable p)%N = false /\
  (0x0f <? hex.reverseHexTable q)%N = false /\
  ascii_of_N (N.lor (N.shiftl (hex.reverseHexTable p) 4)
                (hex.reverseHexTable q)) = v.
Proof. each_byte v; auto. Qed.

Lemma Decode_Encode (bs dst : list byte) :
  hex.Decode dst (hex.EncodeToString bs) = (dst ++ bs, None).
Proof.
  revert dst; induction bs as [|v bs IH]; intros dst.
  - simpl. now rewrite app_nil_r.
  - destruct (encode_decode_byte v) as (Hp & Hq & Hv).
    cbn zeta in Hp, Hq, Hv.
    change (hex.EncodeToString (v :: bs))
      with (hex.hexdigit (N.shiftr (N_of_ascii v) 4)
            :: hex.hexdigit (N.land (N_of_ascii v) 0x0f)
            :: hex.EncodeToString bs).
    cbn [hex.Decode]. rewrite Hp, Hq, Hv, IH, <- app_assoc. reflexivity.
Qed.

(** C8. Hex-mode round trip: [parsePattern] returns [bs] on the lowercase
    hexadecimal encoding of any byte sequence [bs], and in particular
    [DE AD BE EF] on ["deadbeef"]. *)
Theorem parsePattern_hex_roundtrip :
  (forall bs : list byte,
      parsePattern (hex.EncodeToString bs) = Some (bs, None)) /\
  parsePattern (str "deadbeef") =
  Some (map ascii_of_N [0xDE; 0xAD; 0xBE; 0xEF]%N, None).
Proof.
  split; [|reflexivity].
  intros bs. unfold parsePattern, hex.DecodeString.
  rewrite Decode_Encode. reflexivity.
Qed.

(** C5. The empty string parses, in hex mode, to the zero-length byte
    sequence; and a zero-length pattern is reported at each of the
    [len(data) + 1] offsets [0 .. len(data)]. *)
Theorem empty_pattern_accepted :
  parsePattern [] = Some ([], None) /\
  forall data : list byte,
    exists positions,
      findPattern data [] = Some positions /\
      List.length positions = S (List.length data) /\
      forall i, In i positions <-> 0 <= i <= len data.
Proof.
  split; [reflexivity|].
  intros data. exists (zrange 0 (S (List.length data))).
  split; [apply findPattern_empty|]. split; [apply zrange_length|].
  intros i. rewrite In_zrange. unfold len. lia.
Qed.

Lemma list_pair_ind {A : Type} (P : list A -> Prop) :
  P [] -> (forall a, P [a]) -> (forall a b l, P l -> P (a :: b :: l)) ->
  forall l, P l.
Proof.
  intros H0 H1 H2 l.
  assert (H : P l /\ forall a, P (a :: l)); [|apply H].
  induction l as [|b l [IH1 IH2]]; split; auto.
Qed.

(** [Decode] succeeds exactly on the contiguous hexadecimal strings. *)
Lemma Decode_None_iff (s : list byte) :
  forall dst, snd (hex.Decode dst s) = None <-> isHexString s = true.
Proof.
  induction s as [|a|a b s IH] using list_pair_ind; intros dst.
  - simpl; tauto.
  - unfold isHexString; simpl.
    destruct (0x0f <? hex.reverseHexTable a)%N; simpl;
      split; discriminate.
  - cbn [hex.Decode].
    replace (isHexString (a :: b :: s))
      with (isHexDigit a && (isHexDigit b && isHexString s))
      by (unfold isHexString; cbn [List.length Nat.even forallb];
          destruct (isHexDigit a), (isHexDigit b),
            (Nat.even (List.length s)); reflexivity).
    rewrite !isHexDigit_table.
    destruct (0x0f <? hex.reverseHexTable a)%N; simpl;
      [split; discriminate|].
    destruct (0x0f <? hex.reverseHexTable b)%N; simpl;
      [split; discriminate|].
    apply IH.
Qed.

Lemma Decode_fst_length (s : list byte) :
  forall dst,
    snd (hex.Decode dst s) = None ->
    List.length (fst (hex.Decode dst s)) =
    (List.length dst + Nat.div2 (List.length s))%nat.
Proof.
  induction s as [|a|a b s IH] using list_pair_ind; intros dst.
  - simpl; lia.
  - simpl. destruct (0x0f <? hex.reverseHexTable a)%N; discriminate.
  - cbn [hex.Decode].
    destruct (0x0f <? hex.reverseHexTable a)%N; [discriminate|].
    destruct (0x0f <? hex.reverseHexTable b)%N; [discriminate|].
    intros H. rewrite IH by exact H.
    rewrite length_app. simpl. lia.
Qed.

(** A token stands for a byte exactly when, once an ["0x"] prefix is
    stripped, it is two hexadecimal digits. *)
Lemma partByte_Some_iff (part : list byte) :
  (exists v, partByte part = Some v) <->
  isHexByte (strings.TrimPrefix part (str "0x")) = true.
Proof.
  unfold partByte, hex.DecodeString.
  set (t := strings.TrimPrefix part (str "0x")). clearbody t.
  pose proof (Decode_None_iff t []) as Hok.
  pose proof (Decode_fst_length t []) as Hlen.
  destruct (hex.Decode [] t) as [bv err] eqn:E. simpl in Hok, Hlen.
  assert (Hb : isHexByte t = true <->
               isHexString t = true /\ List.length t = 2%nat).
  { destruct t as [|a [|b [|c t]]]; unfold isHexString;
      cbn [isHexByte List.length Nat.even forallb andb];
      try (split; [discriminate | intros [_ [=]]]);
      try (split; [discriminate | intros [[=] _]]).
    destruct (isHexDigit a), (isHexDigit b); simpl; intuition. }
  rewrite Hb. clear Hb.
  destruct err as [e|].
  - split.
    + intros [v Hv]. destruct bv as [|? [|? ?]]; discriminate.
    + intros [H _]. apply Hok in H. discriminate.
  - specialize (Hlen eq_refl). simpl in Hlen.
    assert (Hs : isHexString t = true) by (apply Hok; reflexivity).
    split.
    + intros [v Hv]. split; [exact Hs|].
      destruct bv as [|? [|? ?]]; try discriminate. simpl in Hlen.
      unfold isHexString in Hs. apply andb_true_iff in Hs.
      destruct Hs as [Hev _].
      destruct t as [|x1 [|x2 [|x3 [|x4 t]]]]; simpl in *;
        try discriminate; try reflexivity; lia.
    + intros [_ H2]. rewrite H2 in Hlen. simpl in Hlen.
      destruct bv as [|v [|? ?]]; try discriminate. eauto.
Qed.

Lemma partByte_None_iff (part : list byte) :
  partByte part = None <->
  isHexByte (strings.TrimPrefix part (str "0x")) = false.
Proof.
  pose proof (partByte_Some_iff part) as H.
  destruct (partByte part) as [v|],
    (isHexByte (strings.TrimPrefix part (str "0x")));
    split; intros; try reflexivity; try discriminate.
  - destruct H as [H _]. specialize (H (ex_intro _ v eq_refl)). discriminate.
  - destruct H as [_ H]. destruct (H eq_refl). discriminate.
Qed.

(** ** Tokenized mode *)

Lemma assign_app {A : Type} (done rest : list A) (x v : A) :
  Go.assign (done ++ x :: rest) (len done) v = Some (done ++ v :: rest).
Proof.
  unfold Go.assign, len.
  destruct ((0 <=? Z.of_nat (List.length done)) &&
            (Z.of_nat (List.length done) <?
             Z.of_nat (List.length (done ++ x :: rest)))) eqn:E.
  - rewrite Nat2Z.id. f_equal.
    clear E. induction done as [|d done IH]; simpl; [reflexivity|].
    now rewrite IH.
  - rewrite andb_false_iff, Z.leb_gt, Z.ltb_ge, length_app in E.
    simpl in E. lia.
Qed.

Lemma partByte_Some_inv (part : list byte) (v : byte) :
  partByte part = Some v ->
  hex.DecodeString (strings.TrimPrefix part (str "0x")) = ([v], None).
Proof.
  unfold partByte.
  destruct (hex.DecodeString _) as [[|x [|y l]] [e|]]; try discriminate.
  now intros [= ->].
Qed.

(** When every token stands for a byte, the loop fills [pattern] with
    those bytes, in order, and neither fails nor panics. *)
Lemma parseParts_all (parts : list (list byte)) (vs : list byte) :
  Forall2 (fun p v => partByte p = Some v) parts vs ->
  forall done,
    parseParts parts (len done) (done ++ make (List.length parts)) =
    Some (done ++ vs, None).
Proof.
  induction 1 as [|p v parts vs Hp _ IH]; intros done.
  - reflexivity.
  - cbn [parseParts]. rewrite (partByte_Some_inv _ _ Hp).
    change (make (List.length (p :: parts)))
      with (zero :: make (List.length parts)).
    change (negb (len [v] =? 1)) with false.
    change (Go.index [v] 0) with (Some v).
    cbv iota. rewrite assign_app.
    replace (len done + 1) with (len (done ++ [v]))
      by (unfold len; rewrite length_app; simpl; lia).
    replace (done ++ v :: make (List.length parts))
      with ((done ++ [v]) ++ make (List.length parts))
      by (rewrite <- app_assoc; reflexivity).
    rewrite IH, <- app_assoc. reflexivity.
Qed.

(** A token that stands for no byte makes the loop return an error. *)
Lemma parseParts_bad (parts : list (list byte)) :
  Exists (fun p => partByte p = None) parts ->
  forall done,
    exists part,
      parseParts parts (len done) (done ++ make (List.length parts)) =
      Some ([], Some (InvalidByteFormat part)).
Proof.
  induction parts as [|p parts IH]; intros Hex done;
    [inversion Hex|].
  destruct (partByte p) as [v|] eqn:Hp.
  - assert (Hex' : Exists (fun p => partByte p = None) parts)
      by (inversion Hex; subst; [congruence | assumption]).
    cbn [parseParts]. rewrite (partByte_Some_inv _ _ Hp).
    change (make (List.length (p :: parts)))
      with (zero :: make (List.length parts)).
    change (negb (len [v] =? 1)) with false.
    change (Go.index [v] 0) with (Some v).
    cbv iota. rewrite assign_app.
    replace (len done + 1) with (len (done ++ [v]))
      by (unfold len; rewrite length_app; simpl; lia).
    replace (done ++ v :: make (List.length parts))
      with ((done ++ [v]) ++ make (List.length parts))
      by (rewrite <- app_assoc; reflexivity).
    apply IH, Hex'.
  - cbn [parseParts]. unfold partByte in Hp.
    destruct (hex.DecodeString _) as [bv [e|]]; [eauto|].
    destruct bv as [|x [|y l]];
      [change (negb (len (@nil byte) =? 1)) with true; eauto
      | discriminate |].
    replace (negb (len (x :: y :: l) =? 1)) with true; [eauto|].
    symmetry. apply negb_true_iff, Z.eqb_neq.
    unfold len; simpl List.length; lia.
Qed.

Lemma parseParts_all0 (parts : list (list byte)) (vs : list byte) :
  Forall2 (fun p v => partByte p = Some v) parts vs ->
  parseParts parts 0 (make (List.length parts)) = Some (vs, None).
Proof. intros H. exact (parseParts_all parts vs H []). Qed.

Lemma parseParts_bad0 (parts : list (list byte)) :
  Exists (fun p => partByte p = None) parts ->
  exists part,
    parseParts parts 0 (make (List.length parts)) =
    Some ([], Some (InvalidByteFormat part)).
Proof. intros H. exact (parseParts_bad parts H []). Qed.

Lemma parts_dichotomy (parts : list (list byte)) :
  (exists vs, Forall2 (fun p v => partByte p = Some v) parts vs) \/
  Exists (fun p => partByte p = None) parts.
Proof.
  induction parts as [|p parts [[vs IH]|IH]].
  - left; exists []; constructor.
  - destruct (partByte p) as [v|] eqn:Hp.
    + left; exists (v :: vs); constructor; auto.
    + right; constructor; exact Hp.
  - right; apply Exists_cons_tl, IH.
Qed.

Lemma Forall2_not_Exists (parts : list (list byte)) (vs : list byte) :
  Forall2 (fun p v => partByte p = Some v) parts vs ->
  ~ Exists (fun p => partByte p = None) parts.
Proof.
  induction 1 as [|p v parts vs Hp _ IH]; intros Hex; inversion Hex; subst;
    [congruence | auto].
Qed.

(** C6. [parsePattern] never panics, and it returns an error exactly when
    the input is not a contiguous hexadecimal string of even length and
    some whitespace-separated token, with an ["0x"] prefix stripped, is
    not exactly two hexadecimal digits; ["zz"] is such an input. *)
Theorem parsePattern_error_iff (input : list byte) :
  (exists result, parsePattern input = Some result) /\
  ((exists pattern e, parsePattern input = Some (pattern, Some e)) <->
   isHexString input = false /\
   Exists (fun tok => isHexByte (strings.TrimPrefix tok (str "0x")) = false)
     (strings.Fields input)) /\
  parsePattern (str "zz") = Some ([], Some (InvalidByteFormat (str "zz"))).
Proof.
  assert (Hex : Exists (fun tok =>
                  isHexByte (strings.TrimPrefix tok (str "0x")) = false)
                  (strings.Fields input) <->
                Exists (fun p => partByte p = None) (strings.Fields input)).
  { rewrite !Exists_exists.
    split; intros (p & Hin & Hp); exists p; split; auto;
      apply partByte_None_iff; exact Hp. }
  rewrite Hex. clear Hex.
  unfold parsePattern, hex.DecodeString.
  pose proof (Decode_None_iff input []) as Hok.
  destruct (hex.Decode [] input) as [pattern err]. simpl in Hok.
  split; [|split; [|reflexivity]].
  - destruct err as [e|]; [|eauto].
    destruct (parts_dichotomy (strings.Fields input)) as [[vs H]|H].
    + rewrite (parseParts_all0 _ _ H). eauto.
    + destruct (parseParts_bad0 _ H) as [part ->]. eauto.
  - destruct err as [e|].
    + assert (Hs : isHexString input = false).
      { destruct (isHexString input); [|reflexivity].
        destruct Hok as [_ Hok]. discriminate (Hok eq_refl). }
      destruct (parts_dichotomy (strings.Fields input)) as [[vs H]|H].
      * rewrite (parseParts_all0 _ _ H). split.
        -- intros (? & ? & [=]).
        -- intros [_ Hbad]. exfalso.
           exact (Forall2_not_Exists _ _ H Hbad).
      * destruct (parseParts_bad0 _ H) as [part ->]. split; eauto.
    + split.
      * intros (? & ? & [=]).
      * intros [Hs _]. destruct Hok as [Hok _].
        rewrite (Hok eq_refl) in Hs. discriminate.
Qed.

(** * Properties of the file loop *)

(** ** The loop as a function from inputs to events *)

Lemma findPattern_matches (data pattern : list byte) :
  findPattern data pattern = Some (matches data pattern).
Proof. apply findPattern_filter. Qed.

Lemma addTrace_nil (st : State) : addTrace st [] = st.
Proof. destruct st; unfold addTrace; simpl. now rewrite app_nil_r. Qed.

Lemma addTrace_app (st : State) (evs evs' : list Event) :
  addTrace (addTrace st evs) evs' = addTrace st (evs ++ evs').
Proof. unfold addTrace; simpl. now rewrite app_assoc. Qed.

Lemma emit_run (e : Event) (st : State) :
  emit e st = Some (tt, addTrace st [e]).
Proof. reflexivity. Qed.

Lemma printPositions_run (filePath : list byte) (offset : Z)
    (positions : list Z) (st : State) :
  printPositions filePath offset positions st =
  Some (tt, addTrace st
              (map (fun pos => PrintFound filePath (Go.wrap64 (offset + pos)))
                 positions)).
Proof.
  revert st; induction positions as [|pos positions IH]; intros st.
  - simpl. now rewrite addTrace_nil.
  - cbn [printPositions map]. unfold bind at 1. rewrite emit_run, IH.
    now rewrite addTrace_app.
Qed.

(** The chunk loop never panics; it appends [scanEvents] to the trace. *)
Lemma readLoop_run (pattern filePath : list byte)
    (reads : list ReadResult) :
  forall (offset : Z) (st : State),
    readLoop pattern filePath offset reads st =
    Some (tt, addTrace st (scanEvents pattern filePath offset reads)).
Proof.
  induction reads as [|[chunk err] reads IH]; intros offset st.
  - simpl. unfold ret. now rewrite addTrace_nil.
  - cbn [readLoop scanEvents].
    assert (Hgo : (if len chunk =? 0 then ret tt
                   else positions <- lift (findPattern chunk pattern);;
                        printPositions filePath offset positions;;
                        readLoop pattern filePath
                          (Go.wrap64 (offset + len chunk)) reads) st =
                  Some (tt, addTrace st
                    (if len chunk =? 0 then []
                     else map (fun pos => PrintFound filePath
                                            (Go.wrap64 (offset + pos)))
                            (matches chunk pattern)
                          ++ scanEvents pattern filePath
                               (Go.wrap64 (offset + len chunk)) reads))).
    { destruct (len chunk =? 0).
      - unfold ret. now rewrite addTrace_nil.
      - unfold bind, lift. rewrite findPattern_matches.
        rewrite printPositions_run, IH. now rewrite addTrace_app. }
    destruct err; [exact Hgo | exact Hgo | reflexivity].
Qed.

Lemma searchFile_run (fs : FileSystem) (pattern filePath : list byte)
    (st : State) :
  searchFile fs pattern filePath st =
  Some (tt, mkState
              (trace st ++ fileEvents fs pattern filePath (nextFd st))
              ((if opens fs filePath then [nextFd st] else [])
               ++ deferred st)
              (if opens fs filePath then S (nextFd st) else nextFd st)).
Proof.
  unfold searchFile, fileEvents, opens.
  unfold bind at 1. rewrite emit_run.
  destruct (fs filePath) as [| |reads].
  - rewrite emit_run. unfold addTrace; simpl.
    now rewrite <- app_assoc.
  - rewrite emit_run. unfold addTrace; simpl.
    now rewrite <- app_assoc.
  - unfold bind, osOpen, deferClose. rewrite readLoop_run, emit_run.
    unfold addTrace; simpl. do 2 f_equal. f_equal.
    rewrite <- !app_assoc. reflexivity.
Qed.

(** The loop over the files never panics; it appends [batchEvents] to the
    trace and registers one deferred [Close] per opened file. *)
Lemma searchFiles_run (fs : FileSystem) (pattern : list byte)
    (files : list (list byte)) :
  forall st,
    searchFiles fs pattern files st =
    Some (tt, mkState
                (trace st ++ batchEvents fs pattern files (nextFd st))
                (rev (batchFds fs files (nextFd st)) ++ deferred st)
                (nextFd st + List.length (batchFds fs files (nextFd st)))).
Proof.
  induction files as [|filePath files IH]; intros st.
  - destruct st; simpl. unfold ret; simpl.
    now rewrite app_nil_r, Nat.add_0_r.
  - cbn [searchFiles batchEvents batchFds]. unfold bind.
    rewrite searchFile_run, IH. cbn [trace deferred nextFd].
    destruct (opens fs filePath); cbn [rev List.length app];
      do 2 f_equal; f_equal;
      first [reflexivity | lia | rewrite <- app_assoc; reflexivity].
Qed.

Lemma mainLoop_run (fs : FileSystem) (pattern : list byte)
    (files : list (list byte)) (st : State) :
  mainLoop fs pattern files st =
  Some (tt, mkState
              (trace st ++ batchEvents fs pattern files (nextFd st)
               ++ [PrintSearchComplete; WaitEnter]
               ++ map SysClose
                    (rev (batchFds fs files (nextFd st)) ++ deferred st))
              []
              (nextFd st + List.length (batchFds fs files (nextFd st)))).
Proof.
  unfold mainLoop, bind. rewrite searchFiles_run, !emit_run.
  unfold runDeferred, addTrace; simpl.
  do 2 f_equal. f_equal. rewrite <- !app_assoc. reflexivity.
Qed.

Lemma batchEvents_app (fs : FileSystem) (pattern : list byte)
    (files files' : list (list byte)) :
  forall fd,
    batchEvents fs pattern (files ++ files') fd =
    batchEvents fs pattern files fd
    ++ batchEvents fs pattern files'
         (fd + List.length (batchFds fs files fd)).
Proof.
  induction files as [|filePath files IH]; intros fd;
    cbn [app batchEvents batchFds List.length].
  - now rewrite Nat.add_0_r.
  - rewrite IH, <- app_assoc. do 2 f_equal.
    destruct (opens fs filePath); cbn [List.length]; f_equal; lia.
Qed.

(** ** Reported offsets *)

Lemma wrap64_small (z : Z) :
  - 2 ^ 63 <= z < 2 ^ 63 -> Go.wrap64 z = z.
Proof.
  intros H. unfold Go.wrap64. rewrite Z.mod_small; lia.
Qed.

Lemma len_nonneg {A : Type} (s : list A) : 0 <= len s.
Proof. unfold len; lia. Qed.

Lemma len_app {A : Type} (s t : list A) : len (s ++ t) = len s + len t.
Proof. unfold len. rewrite length_app. lia. Qed.

Lemma matches_bounds (data pattern : list byte) (j : Z) :
  In j (matches data pattern) -> 0 <= j /\ j + len pattern <= len data.
Proof.
  unfold matches. intros H. apply filter_In in H. destruct H as [H _].
  apply In_zrange in H. lia.
Qed.

Lemma In_found (filePath : list byte) (f : Z -> Z) (l : list Z) (o : Z) :
  In (PrintFound filePath o) (map (fun pos => PrintFound filePath (f pos)) l)
  <-> exists pos, In pos l /\ f pos = o.
Proof.
  rewrite in_map_iff. split; intros (pos & H1 & H2).
  - injection H1 as <-. eauto.
  - exists pos. subst. auto.
Qed.

Lemma scanEvents_cons (pattern filePath chunk : list byte) (err : ReadErr)
    (reads : list ReadResult) (offset : Z) :
  err <> ErrOther -> len chunk <> 0 ->
  scanEvents pattern filePath offset (mkRead chunk err :: reads) =
  map (fun pos => PrintFound filePath (Go.wrap64 (offset + pos)))
    (matches chunk pattern)
  ++ scanEvents pattern filePath (Go.wrap64 (offset + len chunk)) reads.
Proof.
  intros He Hn. apply Z.eqb_neq in Hn. cbn [scanEvents]. rewrite Hn.
  destruct err; congruence.
Qed.

Lemma processed_cons (chunk : list byte) (err : ReadErr)
    (reads : list ReadResult) :
  err <> ErrOther -> len chunk <> 0 ->
  processed (mkRead chunk err :: reads) = chunk :: processed reads.
Proof.
  intros He Hn. apply Z.eqb_neq in Hn. cbn [processed]. rewrite Hn.
  destruct err; congruence.
Qed.

Lemma processed_stop (chunk : list byte) (err : ReadErr)
    (reads : list ReadResult) :
  err = ErrOther \/ len chunk = 0 ->
  processed (mkRead chunk err :: reads) = [] /\
  forall pattern filePath offset o,
    ~ In (PrintFound filePath o)
        (scanEvents pattern filePath offset (mkRead chunk err :: reads)).
Proof.
  intros H. cbn [processed scanEvents].
  destruct (len chunk =? 0) eqn:En.
  - destruct err; split; auto; intros ? ? ? ? [H'|[]]; discriminate.
  - apply Z.eqb_neq in En. destruct H as [->|H]; [|contradiction].
    split; auto. intros ? ? ? ? [H'|[]]; discriminate.
Qed.

(** With the counter at [offset], the offsets printed are [offset] plus
    the bytes of the chunks searched before plus the index in the chunk,
    as long as the counter cannot wrap. *)
Lemma scanEvents_found (pattern filePath : list byte)
    (reads : list ReadResult) :
  forall (offset o : Z),
    0 <= offset ->
    offset + len (List.concat (processed reads)) < 2 ^ 63 ->
    (In (PrintFound filePath o) (scanEvents pattern filePath offset reads)
     <->
     exists before chunk after j,
       processed reads = before ++ chunk :: after /\
       In j (matches chunk pattern) /\
       o = offset + len (List.concat before) + j).
Proof.
  induction reads as [|[chunk err] reads IH]; intros offset o Hoff Hfit.
  - simpl. split; [tauto|].
    intros (before & c & after & j & H & _). now destruct before.
  - assert (Hcase : (err = ErrOther \/ len chunk = 0) \/
                    (err <> ErrOther /\ len chunk <> 0)).
    { destruct err; destruct (Z.eq_dec (len chunk) 0); auto;
        right; split; auto; discriminate. }
    destruct Hcase as [Hstop|[He Hn]].
    + destruct (processed_stop chunk err reads Hstop) as [-> Hno].
      split; [intros H; destruct (Hno _ _ _ _ H)|].
      intros (before & c & after & j & H & _). now destruct before.
    + rewrite scanEvents_cons, processed_cons in * by assumption.
      cbn [List.concat] in Hfit. rewrite len_app in Hfit.
      pose proof (len_nonneg (List.concat (processed reads))) as Hc.
      pose proof (len_nonneg chunk) as Hk.
      pose proof (len_nonneg pattern) as Hp.
      rewrite in_app_iff, In_found.
      rewrite (wrap64_small (offset + len chunk)) by lia.
      rewrite (IH (offset + len chunk) o) by lia.
      split.
      * intros [(pos & Hin & <-)|(before & c & after & j & H1 & H2 & ->)].
        -- exists [], chunk, (processed reads), pos.
           pose proof (matches_bounds _ _ _ Hin).
           rewrite wrap64_small by lia.
           repeat split; auto. change (len (List.concat [])) with 0. lia.
        -- exists (chunk :: before), c, after, j.
           repeat split; auto; [now rewrite H1|].
           cbn [List.concat]. rewrite len_app. lia.
      * intros (before & c & after & j & H1 & H2 & ->).
        destruct before as [|c0 before].
        -- injection H1 as <- <-. left. exists j. split; auto.
           pose proof (matches_bounds _ _ _ H2).
           rewrite wrap64_small by lia.
           change (len (List.concat [])) with 0. lia.
        -- injection H1 as <- ->. right. exists before, c, after, j.
           repeat split; auto.
           cbn [List.concat]. rewrite len_app. lia.
Qed.

(** C3. In the scan of one file, an offset is reported exactly when it is
    the number of bytes of the chunks searched before, as actually read,
    plus the index of a match in the current chunk; so a match at index
    [j] of the second chunk, after a first read of 4096 bytes, is reported
    at [4096 + j]. *)
Theorem reported_offsets_absolute (pattern filePath : list byte)
    (reads : list ReadResult) (st : State) :
  len (List.concat (processed reads)) < 2 ^ 63 ->
  exists evs,
    readLoop pattern filePath 0 reads st = Some (tt, addTrace st evs) /\
    (forall o,
        In (PrintFound filePath o) evs <->
        exists before chunk after j positions,
          processed reads = before ++ chunk :: after /\
          findPattern chunk pattern = Some positions /\
          In j positions /\
          o = len (List.concat before) + j) /\
    (forall first e1 second e2 rest j positions,
        reads = mkRead first e1 :: mkRead second e2 :: rest ->
        e1 <> ErrOther -> e2 <> ErrOther ->
        len first = chunkSize -> second <> [] ->
        findPattern second pattern = Some positions ->
        In j positions ->
        In (PrintFound filePath (chunkSize + j)) evs).
Proof.
  intros Hfit.
  exists (scanEvents pattern filePath 0 reads).
  split; [apply readLoop_run|].
  assert (Hiff : forall o,
             In (PrintFound filePath o) (scanEvents pattern filePath 0 reads)
             <->
             exists before chunk after j positions,
               processed reads = before ++ chunk :: after /\
               findPattern chunk pattern = Some positions /\
               In j positions /\
               o = len (List.concat before) + j).
  { intros o. rewrite scanEvents_found by lia. split.
    - intros (before & chunk & after & j & H1 & H2 & ->).
      exists before, chunk, after, j, (matches chunk pattern).
      repeat split; auto. apply findPattern_matches.
    - intros (before & chunk & after & j & positions & H1 & H2 & H3 & ->).
      rewrite findPattern_matches in H2. injection H2 as <-.
      exists before, chunk, after, j. repeat split; auto. }
  split; [exact Hiff|].
  intros first e1 second e2 rest j positions -> He1 He2 Hlen Hne Hpos Hj.
  apply Hiff.
  exists [first], second, (processed rest), j, positions.
  repeat split; auto.
  - rewrite processed_cons; auto; [|rewrite Hlen; discriminate].
    rewrite processed_cons; auto.
    destruct second; [congruence | unfold len; simpl; lia].
  - cbn [List.concat]. rewrite app_nil_r, Hlen. reflexivity.
Qed.

Lemma reported_offsets_absolute_witness :
  exists evs,
    readLoop (str "ab") (str "f") 0
      [mkRead (repeat zero 4096) ErrNil; mkRead (str "xxab") ErrEOF]
      initial = Some (tt, addTrace initial evs) /\
    In (PrintFound (str "f") 4098) evs.
Proof.
  destruct (reported_offsets_absolute (str "ab") (str "f")
              [mkRead (repeat zero 4096) ErrNil; mkRead (str "xxab") ErrEOF]
              initial)
    as (evs & Hrun & _ & Hsecond).
  - vm_compute; reflexivity.
  - exists evs. split; [exact Hrun|].
    apply (Hsecond (repeat zero 4096) ErrNil (str "xxab") ErrEOF [] 2 [2]).
    + reflexivity.
    + discriminate.
    + discriminate.
    + vm_compute; reflexivity.
    + discriminate.
    + reflexivity.
    + simpl; auto.
Defined.

(** ** Chunk boundaries *)

Lemma fullChunks_split (reads : list ReadResult) :
  fullChunks reads = true ->
  forall before chunk after,
    processed reads = before ++ chunk :: after ->
    len (List.concat before) = chunkSize * len before /\
    len chunk <= chunkSize.
Proof.
  induction reads as [|[c err] reads IH]; intros Hfull before chunk after H.
  - now destruct before.
  - cbn [fullChunks] in Hfull.
    assert (He : err <> ErrOther) by (destruct err; congruence).
    assert (Hfull' : (0 <? len c) && (len c <=? chunkSize)
                     && match reads with
                        | [] => true
                        | _ :: _ => (len c =? chunkSize) && fullChunks reads
                        end = true)
      by (destruct err; congruence).
    rewrite !andb_true_iff, Z.ltb_lt, Z.leb_le in Hfull'.
    destruct Hfull' as [[Hpos Hle] Hrest].
    rewrite processed_cons in H by (auto; lia).
    destruct before as [|c0 before]; injection H as <- H.
    + split; [reflexivity | exact Hle].
    + destruct reads as [|r reads]; [now destruct before|].
      rewrite andb_true_iff, Z.eqb_eq in Hrest. destruct Hrest as [Hc Hr].
      destruct (IH Hr before chunk after H) as [IH1 IH2].
      split; [|exact IH2].
      cbn [List.concat]. rewrite len_app, IH1, Hc.
      unfold len; cbn [List.length]. lia.
Qed.

Lemma fullChunks_processed (reads : list ReadResult) :
  fullChunks reads = true -> processed reads = map rd_data reads.
Proof.
  induction reads as [|[c err] reads IH]; intros Hfull; [reflexivity|].
  cbn [fullChunks] in Hfull.
  assert (He : err <> ErrOther) by (destruct err; congruence).
  assert (Hfull' : (0 <? len c) && (len c <=? chunkSize)
                   && match reads with
                      | [] => true
                      | _ :: _ => (len c =? chunkSize) && fullChunks reads
                      end = true)
    by (destruct err; congruence).
  rewrite !andb_true_iff, Z.ltb_lt in Hfull'.
  destruct Hfull' as [[Hpos _] Hrest].
  rewrite processed_cons by (auto; lia). cbn [map rd_data]. f_equal.
  destruct reads as [|r reads]; [reflexivity|].
  apply IH. apply andb_true_iff in Hrest. apply Hrest.
Qed.

(** C2. When a file is read in full chunks of 4096 bytes, an occurrence
    of a pattern of two bytes or more that starts before a chunk boundary
    and ends after it is not reported. *)
Theorem straddling_occurrence_missed (pattern filePath : list byte)
    (reads : list ReadResult) (st : State) (o k : Z) :
  fullChunks reads = true ->
  len (content reads) < 2 ^ 63 ->
  2 <= len pattern ->
  Go.slice (content reads) o (o + len pattern) = Some pattern ->
  o < chunkSize * k < o + len pattern ->
  exists evs,
    readLoop pattern filePath 0 reads st = Some (tt, addTrace st evs) /\
    ~ In (PrintFound filePath o) evs.
Proof.
  intros Hfull Hfit _ _ Hstraddle.
  exists (scanEvents pattern filePath 0 reads).
  split; [apply readLoop_run|].
  unfold content in Hfit. rewrite <- fullChunks_processed in Hfit by assumption.
  rewrite scanEvents_found by lia.
  intros (before & chunk & after & j & Hsplit & Hj & ->).
  destruct (fullChunks_split reads Hfull _ _ _ Hsplit) as [Hbefore Hchunk].
  apply matches_bounds in Hj.
  pose proof (len_nonneg before) as Hb.
  unfold chunkSize in *. lia.
Qed.

Lemma straddling_occurrence_missed_witness :
  exists evs,
    readLoop (str "ab") (str "f") 0
      [mkRead (repeat zero 4095 ++ str "a") ErrNil; mkRead (str "bc") ErrNil]
      initial = Some (tt, addTrace initial evs) /\
    ~ In (PrintFound (str "f") 4095) evs.
Proof.
  apply (straddling_occurrence_missed (str "ab") (str "f")
           [mkRead (repeat zero 4095 ++ str "a") ErrNil;
            mkRead (str "bc") ErrNil]
           initial 4095 1).
  - vm_compute; reflexivity.
  - vm_compute; reflexivity.
  - vm_compute; discriminate.
  - vm_compute; reflexivity.
  - vm_compute; split; reflexivity.
Defined.

(** ** Read errors and the rest of the batch *)

Lemma searchFiles_app (fs : FileSystem) (pattern : list byte)
    (files files' : list (list byte)) :
  forall st,
    searchFiles fs pattern (files ++ files') st =
    match searchFiles fs pattern files st with
    | Some (_, st') => searchFiles fs pattern files' st'
    | None => None
    end.
Proof.
  induction files as [|filePath files IH]; intros st; [reflexivity|].
  cbn [app searchFiles]. unfold bind.
  destruct (searchFile fs pattern filePath st) as [[[] st']|]; auto.
Qed.

(** A read error ends the chunk loop: what the later reads would return
    plays no part. *)
Lemma scanEvents_read_error (pattern filePath : list byte)
    (reads1 reads2 : list ReadResult) (bad : ReadResult) :
  rd_err bad = ErrOther ->
  Forall (fun r => rd_err r <> ErrOther /\ rd_data r <> []) reads1 ->
  forall offset,
    scanEvents pattern filePath offset (reads1 ++ bad :: reads2) =
    scanEvents pattern filePath offset reads1 ++ [PrintReadError filePath].
Proof.
  intros Hbad Hok.
  induction Hok as [|[chunk err] reads1 [He Hne] _ IH]; intros offset.
  - destruct bad as [c e]. simpl in Hbad. subst e. reflexivity.
  - simpl in He, Hne.
    assert (Hn : len chunk <> 0)
      by (destruct chunk; [congruence | unfold len; simpl; lia]).
    cbn [app]. rewrite !scanEvents_cons by assumption.
    rewrite IH, <- app_assoc. reflexivity.
Qed.

Lemma batchEvents_block (fs : FileSystem) (pattern : list byte)
    (files : list (list byte)) (g : list byte) :
  In g files ->
  forall fd0,
    exists l1 l2 fd,
      batchEvents fs pattern files fd0 =
      l1 ++ fileEvents fs pattern g fd ++ l2.
Proof.
  induction files as [|f files IH]; intros Hin fd0; [destruct Hin|].
  destruct Hin as [->|Hin].
  - exists [], (batchEvents fs pattern files
                  (if opens fs g then S fd0 else fd0)), fd0.
    reflexivity.
  - destruct (IH Hin (if opens fs f then S fd0 else fd0))
      as (l1 & l2 & fd & E).
    exists (fileEvents fs pattern f fd0 ++ l1), l2, fd.
    cbn [batchEvents]. rewrite E, <- app_assoc. reflexivity.
Qed.

(** C7. A read error in one file of the batch ends the scan of that file
    only: of that file the chunks read before the error are searched and
    none after it, and every later file of the batch is scanned as it
    would be on its own, its events appearing in the trace as one
    block. *)
Theorem read_error_isolated (fs : FileSystem) (pattern : list byte)
    (before after : list (list byte)) (filePath : list byte)
    (reads1 reads2 : list ReadResult) (bad : ReadResult) (st : State) :
  fs filePath = Readable (reads1 ++ bad :: reads2) ->
  rd_err bad = ErrOther ->
  Forall (fun r => rd_err r <> ErrOther /\ rd_data r <> []) reads1 ->
  exists st1 st2 st3,
    searchFiles fs pattern before st = Some (tt, st1) /\
    searchFile fs pattern filePath st1 = Some (tt, st2) /\
    searchFiles fs pattern after st2 = Some (tt, st3) /\
    searchFiles fs pattern (before ++ filePath :: after) st =
    Some (tt, st3) /\
    trace st2 =
    trace st1 ++ [PrintSearching filePath; SysOpen (nextFd st1)]
    ++ scanEvents pattern filePath 0 reads1
    ++ [PrintReadError filePath; PrintCompleted filePath] /\
    trace st3 = trace st2 ++ batchEvents fs pattern after (nextFd st2) /\
    forall g, In g after ->
      exists l1 l2 fd,
        batchEvents fs pattern after (nextFd st2) =
        l1 ++ fileEvents fs pattern g fd ++ l2.
Proof.
  intros Hfs Hbad Hok.
  destruct (searchFiles fs pattern before st) as [[[] st1]|] eqn:E1;
    [|rewrite searchFiles_run in E1; discriminate].
  destruct (searchFile fs pattern filePath st1) as [[[] st2]|] eqn:E2;
    [|rewrite searchFile_run in E2; discriminate].
  destruct (searchFiles fs pattern after st2) as [[[] st3]|] eqn:E3;
    [|rewrite searchFiles_run in E3; discriminate].
  exists st1, st2, st3.
  split; [reflexivity|]. split; [exact E2|]. split; [exact E3|].
  split; [|split; [|split]].
  - rewrite searchFiles_app, E1. cbn [searchFiles]. unfold bind.
    rewrite E2. exact E3.
  - rewrite searchFile_run in E2. injection E2 as <-. cbn [trace].
    unfold fileEvents. rewrite Hfs.
    rewrite scanEvents_read_error by assumption.
    cbn [app]. rewrite <- !app_assoc. reflexivity.
  - rewrite searchFiles_run in E3. injection E3 as <-. reflexivity.
  - intros g Hg. apply batchEvents_block, Hg.
Qed.

Lemma read_error_isolated_witness :
  exists st3,
    searchFiles twoFiles (str "ab") [str "bad"; str "good"] initial =
    Some (tt, st3) /\
    In (PrintFound (str "good") 3) (trace st3).
Proof.
  destruct (read_error_isolated twoFiles (str "ab") [] [str "good"]
              (str "bad") [mkRead (str "..ab") ErrNil]
              [mkRead (str "ab") ErrNil] (mkRead [] ErrOther) initial)
    as (st1 & st2 & st3 & H1 & H2 & H3 & H4 & H5 & H6 & H7).
  - reflexivity.
  - reflexivity.
  - repeat constructor; discriminate.
  - exists st3. split; [exact H4|].
    rewrite H6. apply in_or_app. right.
    vm_compute. auto 10.
Defined.

(** ** When files are closed *)

Lemma scanEvents_no_close (pattern filePath : list byte)
    (reads : list ReadResult) (fd : nat) :
  forall offset,
    ~ In (SysClose fd) (scanEvents pattern filePath offset reads).
Proof.
  induction reads as [|[chunk err] reads IH]; intros offset; [intros []|].
  assert (Hgo : ~ In (SysClose fd)
                  (if len chunk =? 0 then []
                   else map (fun pos => PrintFound filePath
                                          (Go.wrap64 (offset + pos)))
                          (matches chunk pattern)
                        ++ scanEvents pattern filePath
                             (Go.wrap64 (offset + len chunk)) reads)).
  { destruct (len chunk =? 0); [intros []|].
    rewrite in_app_iff, in_map_iff.
    intros [(pos & H & _)|H]; [discriminate | exact (IH _ H)]. }
  cbn [scanEvents].
  destruct err; try exact Hgo. intros [H|[]]; discriminate.
Qed.

(** The loop over the files closes nothing: every [Close] runs when [main]
    returns, after the closing prompt, the file opened last first. *)
Lemma closes_only_at_return (fs : FileSystem) (pattern : list byte)
    (files : list (list byte)) (st : State) :
  exists st',
    mainLoop fs pattern files st = Some (tt, st') /\
    trace st' =
    trace st ++ batchEvents fs pattern files (nextFd st)
    ++ [PrintSearchComplete; WaitEnter]
    ++ map SysClose (rev (batchFds fs files (nextFd st)) ++ deferred st) /\
    forall fd, ~ In (SysClose fd) (batchEvents fs pattern files (nextFd st)).
Proof.
  eexists. split; [apply mainLoop_run|]. split; [reflexivity|].
  intros fd. generalize (nextFd st).
  induction files as [|f files IH]; intros fd0; [intros []|].
  cbn [batchEvents]. rewrite in_app_iff. intros [H|H]; [|exact (IH _ H)].
  unfold fileEvents in H. destruct H as [H|H]; [discriminate|].
  destruct (fs f) as [| |reads].
  - destruct H as [H|[]]; discriminate.
  - destruct H as [H|[]]; discriminate.
  - destruct H as [H|H]; [discriminate|].
    apply in_app_or in H. destruct H as [H|[H|[]]]; [|discriminate].
    exact (scanEvents_no_close _ _ _ _ _ H).
Qed.

(** C4 fails on the code.  In a batch of two files the handle of the
    first file, whose scan ends on a read error, is still open while the
    second is scanned, and both handles are closed only after the closing
    prompt, when [main] returns: [defer file.Close()] sits in the loop
    body. *)
Theorem handles_closed_at_return_only :
  mainLoop twoFiles (str "ab") [str "bad"; str "good"] initial =
  Some (tt,
        mkState
          [PrintSearching (str "bad"); SysOpen 3;
           PrintFound (str "bad") 2; PrintReadError (str "bad");
           PrintCompleted (str "bad");
           PrintSearching (str "good"); SysOpen 4;
           PrintFound (str "good") 0; PrintFound (str "good") 3;
           PrintCompleted (str "good");
           PrintSearchComplete; WaitEnter;
           SysClose 4; SysClose 3]
          [] 5).
Proof. reflexivity. Qed.

(** ** Tokens with and without the ["0x"] prefix *)

Lemma IsSpace_cases (r : utf8.rune) :
  unicode.IsSpace r = true -> In r spaceRunes.
Proof.
  unfold unicode.IsSpace, utf8.between, spaceRunes.
  destruct (r <=? 0xFF)%N; intros H;
    rewrite ?orb_true_iff, ?andb_true_iff, ?N.eqb_eq, ?N.leb_le in H;
    simpl; lia.
Qed.

Lemma fieldsLoop_space (r : utf8.rune) :
  unicode.IsSpace r = true ->
  forall rest start spans,
    strings.fieldsLoop unicode.IsSpace (utf8.EncodeRune r ++ rest) 0 start
      spans =
    strings.fieldsLoop unicode.IsSpace rest 0 None
      (match start with
       | Some field => spans ++ [field]
       | None => spans
       end).
Proof.
  intros H rest start spans. apply IsSpace_cases in H.
  unfold spaceRunes in H. simpl in H.
  repeat (destruct H as [<-|H]; [destruct start; reflexivity|]).
  destruct H.
Qed.

Lemma fieldsLoop_spaces (ws : list utf8.rune) :
  forallb unicode.IsSpace ws = true ->
  forall rest start spans,
    strings.fieldsLoop unicode.IsSpace (utf8.EncodeRunes ws ++ rest) 0 start
      spans =
    strings.fieldsLoop unicode.IsSpace rest 0
      (match ws with [] => start | _ :: _ => None end)
      (match ws, start with
       | _ :: _, Some field => spans ++ [field]
       | _, _ => spans
       end).
Proof.
  induction ws as [|r ws IH]; intros Hws rest start spans.
  - destruct start; reflexivity.
  - cbn [forallb] in Hws. apply andb_true_iff in Hws.
    destruct Hws as [Hr Hws].
    change (utf8.EncodeRunes (r :: ws))
      with (utf8.EncodeRune r ++ utf8.EncodeRunes ws).
    rewrite <- app_assoc, fieldsLoop_space by exact Hr.
    rewrite IH by exact Hws.
    destruct ws; reflexivity.
Qed.

(** The characters of a token are ASCII and not white space. *)
Lemma token_char (c : byte) :
  isHexDigit c = true \/ c = "x"%char ->
  (N_of_ascii c <? 0x80)%N = true /\
  unicode.IsSpace (N_of_ascii c) = false.
Proof.
  each_byte c; intros [H|H]; try discriminate; auto.
Qed.

Lemma fieldsLoop_char (c : byte) :
  isHexDigit c = true \/ c = "x"%char ->
  forall rest start spans,
    strings.fieldsLoop unicode.IsSpace (c :: rest) 0 start spans =
    strings.fieldsLoop unicode.IsSpace rest 0
      (Some (match start with Some field => field | None => [] end ++ [c]))
      spans.
Proof.
  intros H rest start spans. destruct (token_char c H) as [Hascii Hsp].
  cbn [strings.fieldsLoop]. unfold utf8.DecodeRune.
  rewrite Hascii, Hsp. destruct start; reflexivity.
Qed.

Lemma fieldsLoop_token (t : Token) :
  validToken t = true ->
  forall rest spans,
    strings.fieldsLoop unicode.IsSpace (tokenText t ++ rest) 0 None spans =
    strings.fieldsLoop unicode.IsSpace rest 0 (Some (tokenText t)) spans.
Proof.
  intros Hv rest spans. unfold validToken in Hv.
  apply andb_true_iff in Hv. destruct Hv as [Hhi Hlo].
  unfold tokenText. destruct (prefixed t); cbn [app str list_ascii_of_string].
  - rewrite (fieldsLoop_char "0"%char) by (left; reflexivity).
    rewrite (fieldsLoop_char "x"%char) by (right; reflexivity).
    rewrite (fieldsLoop_char (hi t)), (fieldsLoop_char (lo t)) by auto.
    reflexivity.
  - rewrite (fieldsLoop_char (hi t)), (fieldsLoop_char (lo t)) by auto.
    reflexivity.
Qed.

(** [Fields] recovers the tokens of a line. *)
Lemma fieldsLoop_line (items : list (Token * list utf8.rune)) :
  separated items = true ->
  forall spans,
    strings.fieldsLoop unicode.IsSpace (line items) 0 None spans =
    spans ++ map (fun it => tokenText (fst it)) items.
Proof.
  induction items as [|[t ws] items IH]; intros Hsep spans.
  - simpl. now rewrite app_nil_r.
  - cbn [separated] in Hsep. rewrite !andb_true_iff in Hsep.
    destruct Hsep as [[Hv Hws] Hrest].
    cbn [line map fst]. rewrite fieldsLoop_token by exact Hv.
    rewrite fieldsLoop_spaces by exact Hws.
    destruct items as [|it items].
    + destruct ws; reflexivity.
    + apply andb_true_iff in Hrest. destruct Hrest as [Hne Hsep].
      destruct ws as [|r ws]; [discriminate|].
      rewrite IH by exact Hsep. rewrite <- app_assoc. reflexivity.
Qed.

Lemma Fields_line (lead : list utf8.rune)
    (items : list (Token * list utf8.rune)) :
  forallb unicode.IsSpace lead = true ->
  separated items = true ->
  strings.Fields (utf8.EncodeRunes lead ++ line items) =
  map (fun it => tokenText (fst it)) items.
Proof.
  intros Hlead Hsep. unfold strings.Fields, strings.FieldsFunc.
  rewrite fieldsLoop_spaces by exact Hlead.
  replace (match lead with [] => None | _ :: _ => None end)
    with (@None (list byte)) by (destruct lead; reflexivity).
  replace (match lead, @None (list byte) with
           | _ :: _, Some field => [] ++ [field]
           | _, _ => []
           end) with (@nil (list byte)) by (destruct lead; reflexivity).
  now rewrite fieldsLoop_line.
Qed.

(** Two hexadecimal digits do not start with ["0x"]. *)
Lemma TrimPrefix_digits (h l : byte) :
  isHexDigit l = true -> strings.TrimPrefix [h; l] (str "0x") = [h; l].
Proof.
  intros Hlo. unfold strings.TrimPrefix.
  cbn [strings.HasPrefix str list_ascii_of_string].
  destruct (Ascii.eqb l "x") eqn:Ex.
  - apply Ascii.eqb_eq in Ex. rewrite Ex in Hlo. discriminate.
  - cbn [andb]. now rewrite andb_false_r.
Qed.

Lemma partByte_tokenText (t : Token) :
  validToken t = true -> partByte (tokenText t) = Some (tokenByte t).
Proof.
  intros Hv. unfold validToken in Hv.
  apply andb_true_iff in Hv. destruct Hv as [Hhi Hlo].
  assert (Htrim : strings.TrimPrefix (tokenText t) (str "0x")
                  = [hi t; lo t]).
  { unfold tokenText. destruct (prefixed t); [reflexivity|].
    apply TrimPrefix_digits, Hlo. }
  unfold partByte. rewrite Htrim. unfold hex.DecodeString.
  cbn [hex.Decode]. rewrite isHexDigit_table in Hhi, Hlo.
  apply negb_true_iff in Hhi, Hlo. rewrite Hhi, Hlo. reflexivity.
Qed.

Lemma space_not_hex (r : utf8.rune) (rest : list byte) :
  unicode.IsSpace r = true ->
  forallb isHexDigit (utf8.EncodeRune r ++ rest) = false.
Proof.
  intros H. apply IsSpace_cases in H.
  unfold spaceRunes in H. simpl in H.
  repeat (destruct H as [<-|H]; [reflexivity|]).
  destruct H.
Qed.

Lemma spaces_not_hex (ws : list utf8.rune) (rest : list byte) :
  forallb unicode.IsSpace ws = true ->
  forallb isHexDigit (utf8.EncodeRunes ws ++ rest) = true ->
  ws = [].
Proof.
  destruct ws as [|r ws]; [reflexivity|].
  cbn [forallb]. rewrite andb_true_iff. intros [Hr _].
  change (utf8.EncodeRunes (r :: ws))
    with (utf8.EncodeRune r ++ utf8.EncodeRunes ws).
  rewrite <- app_assoc, space_not_hex by exact Hr. discriminate.
Qed.

Lemma separated_valid (items : list (Token * list utf8.rune)) :
  separated items = true ->
  Forall2 (fun p v => partByte p = Some v)
    (map (fun it => tokenText (fst it)) items)
    (map (fun it => tokenByte (fst it)) items).
Proof.
  induction items as [|[t ws] items IH]; intros Hsep; [constructor|].
  cbn [separated] in Hsep. rewrite !andb_true_iff in Hsep.
  destruct Hsep as [[Hv _] Hrest].
  cbn [map fst]. constructor; [apply partByte_tokenText, Hv|].
  destruct items as [|it items]; [constructor|].
  apply IH. apply andb_true_iff in Hrest. apply Hrest.
Qed.

(** A line that is also a contiguous hexadecimal string is empty or a
    single token without prefix. *)
Lemma hex_line (lead : list utf8.rune)
    (items : list (Token * list utf8.rune)) :
  forallb unicode.IsSpace lead = true ->
  separated items = true ->
  forallb isHexDigit (utf8.EncodeRunes lead ++ line items) = true ->
  lead = [] /\
  (items = [] \/ exists t, items = [(t, [])] /\ prefixed t = false).
Proof.
  intros Hlead Hsep Hhex.
  assert (lead = []) as -> by (eapply spaces_not_hex; eassumption).
  split; [reflexivity|].
  destruct items as [|[t ws] items]; [left; reflexivity|right].
  cbn [utf8.EncodeRunes flat_map app line] in Hhex.
  cbn [separated] in Hsep. rewrite !andb_true_iff in Hsep.
  destruct Hsep as [[Hv Hws] Hrest].
  unfold tokenText in Hhex.
  destruct t as [[|] h l]; cbn [prefixed hi lo] in *;
    [discriminate Hhex|].
  cbn [app forallb] in Hhex. rewrite !andb_true_iff in Hhex.
  destruct Hhex as (_ & _ & Hhex).
  assert (ws = []) as -> by (eapply spaces_not_hex; eassumption).
  destruct items as [|it items]; [|discriminate].
  exists (mkToken false h l). auto.
Qed.

(** C9. On a line of two-hexadecimal-digit tokens separated by white
    space, [parsePattern] returns the bytes the digits stand for, whichever
    tokens carry the ["0x"] prefix; so it does on
    ["0xDE 0xAD 0xBE 0xEF"] and on ["DE AD BE EF"]. *)
Theorem tokenized_prefix_insensitive :
  (forall (lead : list utf8.rune) (items : list (Token * list utf8.rune)),
      forallb unicode.IsSpace lead = true ->
      separated items = true ->
      parsePattern (utf8.EncodeRunes lead ++ line items) =
      Some (map (fun it => tokenByte (fst it)) items, None)) /\
  parsePattern (str "0xDE 0xAD 0xBE 0xEF") =
  Some (map ascii_of_N [0xDE; 0xAD; 0xBE; 0xEF]%N, None) /\
  parsePattern (str "DE AD BE EF") =
  Some (map ascii_of_N [0xDE; 0xAD; 0xBE; 0xEF]%N, None).
Proof.
  split; [|split; reflexivity].
  intros lead items Hlead Hsep.
  unfold parsePattern, hex.DecodeString.
  pose proof (Decode_None_iff (utf8.EncodeRunes lead ++ line items) [])
    as Hok.
  destruct (hex.Decode [] (utf8.EncodeRunes lead ++ line items))
    as [pattern [e|]] eqn:E; simpl in Hok.
  - rewrite Fields_line by assumption.
    apply parseParts_all0, separated_valid, Hsep.
  - destruct Hok as [Hok _]. specialize (Hok eq_refl).
    unfold isHexString in Hok. apply andb_true_iff in Hok.
    destruct Hok as [_ Hhex].
    destruct (hex_line lead items Hlead Hsep Hhex) as [-> [->|(t & -> & Ht)]].
    + simpl in E. injection E as <-. reflexivity.
    + cbn [separated] in Hsep. rewrite !andb_true_iff in Hsep.
      destruct Hsep as [[Hv _] _].
      pose proof (partByte_tokenText t Hv) as Hp.
      apply partByte_Some_inv in Hp. unfold hex.DecodeString in Hp.
      destruct t as [p h l]. simpl in Ht. subst p.
      change (strings.TrimPrefix (tokenText (mkToken false h l)) (str "0x"))
        with (strings.TrimPrefix [h; l] (str "0x")) in Hp.
      assert (Htrim : strings.TrimPrefix [h; l] (str "0x") = [h; l]).
      { apply TrimPrefix_digits. unfold validToken in Hv.
        apply andb_true_iff in Hv. apply Hv. }
      rewrite Htrim in Hp.
      change (utf8.EncodeRunes [] ++ line [(mkToken false h l, [])])
        with [h; l] in E.
      rewrite Hp in E. injection E as <-. reflexivity.
Qed.

Lemma tokenized_prefix_insensitive_witness :
  parsePattern
    (utf8.EncodeRunes [0x3000%N]
     ++ line [(mkToken true "D"%char "E"%char, [32%N; 0xA0%N]);
              (mkToken false "a"%char "d"%char, [9%N])]) =
  Some (map ascii_of_N [0xDE; 0xAD]%N, None).
Proof.
  apply (proj1 tokenized_prefix_insensitive [0x3000%N]
           [(mkToken true "D"%char "E"%char, [32%N; 0xA0%N]);
            (mkToken false "a"%char "d"%char, [9%N])]).
  - reflexivity.
  - reflexivity.
Defined.

(** * Further properties of [findPattern] and of the chunk loop *)

Lemma slice_app_middle {A : Type} (pre chunk post : list A) (j k : Z) :
  0 <= j <= k -> k <= len chunk ->
  Go.slice (pre ++ chunk ++ post) (len pre + j) (len pre + k) =
  Go.slice chunk j k.
Proof.
  intros Hjk Hk.
  assert (Hc : Go.slice chunk j k =
               Some (firstn (Z.to_nat (k - j)) (skipn (Z.to_nat j) chunk)))
    by (apply slice_Some_iff; repeat split; lia).
  rewrite Hc. apply slice_Some_iff.
  pose proof (len_nonneg pre) as Hp. pose proof (len_nonneg post) as Hq.
  rewrite !len_app. repeat split; try lia.
  replace (len pre + k - (len pre + j)) with (k - j) by lia.
  replace (Z.to_nat (len pre + j))
    with (List.length pre + Z.to_nat j)%nat by (unfold len; lia).
  rewrite skipn_app.
  rewrite (skipn_all2 (n := List.length pre + Z.to_nat j) pre) by lia.
  replace (List.length pre + Z.to_nat j - List.length pre)%nat
    with (Z.to_nat j) by lia.
  cbn [app]. rewrite skipn_app, firstn_app.
  rewrite length_skipn.
  replace (Z.to_nat (k - j) - (List.length chunk - Z.to_nat j))%nat
    with O by (unfold len in Hk; lia).
  now rewrite firstn_O, app_nil_r.
Qed.

Lemma concat_split {A : Type} (before after : list (list A))
    (chunk : list A) :
  List.concat (before ++ chunk :: after) =
  List.concat before ++ chunk ++ List.concat after.
Proof. rewrite concat_app. reflexivity. Qed.

Lemma In_matches (data pattern : list byte) (j : Z) :
  In j (matches data pattern) <->
  Go.slice data j (j + len pattern) = Some pattern.
Proof. apply In_findPattern. Qed.

(** X1. A match found at [j] in a block is found at [len(pre) + j] in
    any block that contains it after a prefix [pre]: extending the data
    on either side loses no match. *)
Theorem findPattern_in_context (pre data post pattern : list byte) (j : Z) :
  (exists positions,
      findPattern data pattern = Some positions /\ In j positions) ->
  exists positions',
    findPattern (pre ++ data ++ post) pattern = Some positions' /\
    In (len pre + j) positions'.
Proof.
  intros (positions & Hf & Hj).
  rewrite findPattern_matches in Hf. injection Hf as <-.
  exists (matches (pre ++ data ++ post) pattern).
  split; [apply findPattern_matches|].
  apply In_matches. apply In_matches in Hj.
  pose proof (len_nonneg pattern).
  assert (Hb := Hj). apply slice_Some_iff in Hb.
  rewrite <- Hj, <- Z.add_assoc. apply slice_app_middle; lia.
Qed.

Lemma findPattern_in_context_witness :
  exists positions',
    findPattern (str "xy" ++ str "zab" ++ str "c") (str "ab") =
    Some positions' /\
    In (len (str "xy") + 1) positions'.
Proof.
  apply (findPattern_in_context (str "xy") (str "zab") (str "c")
           (str "ab") 1).
  exists [1]. split; [reflexivity | simpl; auto].
Defined.

(** The offsets reported for a file, in terms of the occurrences of the
    pattern in what was read. *)
Lemma scan_reports_occurrences_in_chunks (pattern filePath : list byte)
    (reads : list ReadResult) (st : State) :
  len (List.concat (processed reads)) < 2 ^ 63 ->
  exists evs,
    readLoop pattern filePath 0 reads st = Some (tt, addTrace st evs) /\
    forall o,
      In (PrintFound filePath o) evs <->
      Go.slice (List.concat (processed reads)) o (o + len pattern)
      = Some pattern /\
      exists before chunk after,
        processed reads = before ++ chunk :: after /\
        len (List.concat before) <= o /\
        o + len pattern <= len (List.concat before) + len chunk.
Proof.
  intros Hfit. exists (scanEvents pattern filePath 0 reads).
  split; [apply readLoop_run|].
  intros o. rewrite scanEvents_found by lia.
  pose proof (len_nonneg pattern) as Hp.
  split.
  - intros (before & chunk & after & j & Hsplit & Hj & ->).
    pose proof (matches_bounds _ _ _ Hj) as Hb.
    apply In_matches in Hj.
    split.
    + rewrite Hsplit, concat_split, <- Hj.
      replace (0 + len (List.concat before) + j + len pattern)
        with (len (List.concat before) + (j + len pattern)) by lia.
      replace (0 + len (List.concat before) + j)
        with (len (List.concat before) + j) by lia.
      apply slice_app_middle; lia.
    + exists before, chunk, after. repeat split; auto; lia.
  - intros (Hocc & before & chunk & after & Hsplit & Hlo & Hhi).
    exists before, chunk, after, (o - len (List.concat before)).
    repeat split; auto; [|lia].
    apply In_matches.
    rewrite Hsplit, concat_split in Hocc. rewrite <- Hocc.
    replace o with (len (List.concat before)
                    + (o - len (List.concat before))) at 3 4 by lia.
    rewrite <- Z.add_assoc. symmetry. apply slice_app_middle; lia.
Qed.


(** X2. The scan of a file has no false positives and misses nothing that
    fits in a chunk: an offset is reported exactly when the pattern
    occurs there in the file and the occurrence lies inside one of the
    chunks searched. *)
Theorem reported_iff_occurrence_in_chunk (pattern filePath : list byte)
    (reads : list ReadResult) (st : State) :
  len (List.concat (processed reads)) < 2 ^ 63 ->
  exists evs,
    readLoop pattern filePath 0 reads st = Some (tt, addTrace st evs) /\
    forall o,
      In (PrintFound filePath o) evs <->
      Go.slice (List.concat (processed reads)) o (o + len pattern)
      = Some pattern /\
      exists before chunk after,
        processed reads = before ++ chunk :: after /\
        len (List.concat before) <= o /\
        o + len pattern <= len (List.concat before) + len chunk.
Proof. apply scan_reports_occurrences_in_chunks. Qed.

Lemma reported_iff_occurrence_in_chunk_witness :
  exists evs,
    readLoop (str "ab") (str "f") 0
      [mkRead (str "xab") ErrNil; mkRead (str "abab") ErrEOF] initial =
    Some (tt, addTrace initial evs) /\
    In (PrintFound (str "f") 5) evs.
Proof.
  destruct (reported_iff_occurrence_in_chunk (str "ab") (str "f")
              [mkRead (str "xab") ErrNil; mkRead (str "abab") ErrEOF]
              initial) as (evs & Hrun & Hiff).
  - vm_compute; reflexivity.
  - exists evs. split; [exact Hrun|]. apply Hiff. split.
    + reflexivity.
    + exists [str "xab"], (str "abab"), []. repeat split.
      * vm_compute; discriminate.
      * vm_compute; discriminate.
Defined.

(** X3. A file delivered by a single read is searched exhaustively: the
    offsets reported are exactly those at which the pattern occurs in
    the file. *)
Theorem single_read_exhaustive (pattern filePath data : list byte)
    (err : ReadErr) (st : State) :
  data <> [] -> err <> ErrOther -> len data < 2 ^ 63 ->
  exists evs,
    readLoop pattern filePath 0 [mkRead data err] st =
    Some (tt, addTrace st evs) /\
    forall o,
      In (PrintFound filePath o) evs <->
      Go.slice data o (o + len pattern) = Some pattern.
Proof.
  intros Hne He Hfit.
  assert (Hn : len data <> 0)
    by (destruct data; [congruence | unfold len; simpl; lia]).
  exists (scanEvents pattern filePath 0 [mkRead data err]).
  split; [apply readLoop_run|].
  intros o. rewrite scanEvents_found;
    rewrite ?processed_cons by assumption; cbn [processed List.concat];
    rewrite ?app_nil_r; try lia.
  split.
  - intros (before & chunk & after & j & Hsplit & Hj & ->).
    destruct before as [|c0 before];
      [|destruct before; discriminate].
    injection Hsplit as <- <-. apply In_matches in Hj.
    exact Hj.
  - intros Hocc. exists [], data, [], o. repeat split; auto.
    apply In_matches, Hocc.
Qed.

Lemma single_read_exhaustive_witness :
  exists evs,
    readLoop (str "aa") (str "f") 0 [mkRead (str "aaa") ErrNil] initial =
    Some (tt, addTrace initial evs) /\
    In (PrintFound (str "f") 1) evs.
Proof.
  destruct (single_read_exhaustive (str "aa") (str "f") (str "aaa") ErrNil
              initial) as (evs & Hrun & Hiff).
  - discriminate.
  - discriminate.
  - vm_compute; reflexivity.
  - exists evs. split; [exact Hrun|]. apply Hiff. reflexivity.
Defined.

Lemma processed_nonempty (reads : list ReadResult) :
  Forall (fun chunk => 0 < len chunk) (processed reads).
Proof.
  induction reads as [|[chunk err] reads IH]; [constructor|].
  assert (Hcase : (err = ErrOther \/ len chunk = 0) \/
                  (err <> ErrOther /\ len chunk <> 0)).
  { destruct err; destruct (Z.eq_dec (len chunk) 0); auto;
      right; split; auto; discriminate. }
  destruct Hcase as [Hstop|[He Hn]].
  - destruct (processed_stop chunk err reads Hstop) as [-> _]. constructor.
  - rewrite processed_cons by assumption. constructor; [|exact IH].
    pose proof (len_nonneg chunk). lia.
Qed.

(** A position of a concatenation lies in one of its pieces. *)
Lemma concat_locate {A : Type} (chunks : list (list A)) (o : Z) :
  0 <= o < len (List.concat chunks) ->
  exists before chunk after,
    chunks = before ++ chunk :: after /\
    len (List.concat before) <= o < len (List.concat before) + len chunk.
Proof.
  revert o; induction chunks as [|c chunks IH]; intros o Ho.
  - change (len (List.concat (@nil (list A)))) with 0 in Ho. lia.
  - cbn [List.concat] in Ho. rewrite len_app in Ho.
    destruct (Z_lt_dec o (len c)) as [Hlt|Hge].
    + exists [], c, chunks. split; [reflexivity|].
      change (len (List.concat (@nil (list A)))) with 0. lia.
    + destruct (IH (o - len c)) as (before & chunk & after & -> & Hb);
        [lia|].
      exists (c :: before), chunk, after. split; [reflexivity|].
      cbn [List.concat]. rewrite len_app. lia.
Qed.

(** X4. A one-byte pattern cannot straddle a chunk boundary: however the
    file is cut into reads, the offsets reported are exactly the
    positions of that byte in what was read. *)
Theorem one_byte_pattern_exhaustive (c : byte) (filePath : list byte)
    (reads : list ReadResult) (st : State) :
  len (List.concat (processed reads)) < 2 ^ 63 ->
  exists evs,
    readLoop [c] filePath 0 reads st = Some (tt, addTrace st evs) /\
    forall o,
      In (PrintFound filePath o) evs <->
      Go.slice (List.concat (processed reads)) o (o + 1) = Some [c].
Proof.
  intros Hfit.
  destruct (scan_reports_occurrences_in_chunks [c] filePath reads st Hfit)
    as (evs & Hrun & Hiff).
  exists evs. split; [exact Hrun|].
  intros o. rewrite Hiff. change (len [c]) with 1.
  split; [tauto|]. intros Hocc. split; [exact Hocc|].
  assert (Hb := Hocc). apply slice_Some_iff in Hb.
  destruct (concat_locate (processed reads) o) as
    (before & chunk & after & Hsplit & Hlo); [lia|].
  exists before, chunk, after. repeat split; auto; lia.
Qed.

Lemma one_byte_pattern_exhaustive_witness :
  exists evs,
    readLoop (str "b") (str "f") 0
      [mkRead (str "ab") ErrNil; mkRead (str "b") ErrNil] initial =
    Some (tt, addTrace initial evs) /\
    In (PrintFound (str "f") 2) evs.
Proof.
  destruct (one_byte_pattern_exhaustive "b"%char (str "f")
              [mkRead (str "ab") ErrNil; mkRead (str "b") ErrNil] initial)
    as (evs & Hrun & Hiff).
  - vm_compute; reflexivity.
  - exists evs. split; [exact Hrun|]. apply Hiff. reflexivity.
Defined.

Lemma foundOffsets_app (evs evs' : list Event) :
  foundOffsets (evs ++ evs') = foundOffsets evs ++ foundOffsets evs'.
Proof.
  induction evs as [|e evs IH]; [reflexivity|].
  destruct e; cbn [app foundOffsets]; rewrite IH; reflexivity.
Qed.

Lemma foundOffsets_found (filePath : list byte) (f : Z -> Z) (l : list Z) :
  foundOffsets (map (fun pos => PrintFound filePath (f pos)) l) = map f l.
Proof. induction l as [|x l IH]; simpl; [|rewrite IH]; reflexivity. Qed.

Lemma sorted_app (l1 l2 : list Z) :
  StronglySorted Z.lt l1 -> StronglySorted Z.lt l2 ->
  (forall x y, In x l1 -> In y l2 -> x < y) ->
  StronglySorted Z.lt (l1 ++ l2).
Proof.
  induction 1 as [|a l1 Hs IH Hall]; intros H2 Hlt; [exact H2|].
  cbn [app]. constructor.
  - apply IH; auto. intros x y Hx Hy. apply Hlt; [right|]; auto.
  - apply Forall_app. split; [exact Hall|].
    apply Forall_forall. intros y Hy. apply Hlt; [left|]; auto.
Qed.

Lemma matches_sorted (data pattern : list byte) :
  StronglySorted Z.lt (matches data pattern).
Proof. apply filter_sorted, zrange_sorted. Qed.

Lemma map_add_sorted (offset : Z) (l : list Z) :
  StronglySorted Z.lt l ->
  StronglySorted Z.lt (map (fun pos => offset + pos) l).
Proof.
  induction 1 as [|a l Hs IH Hall]; cbn [map]; constructor; auto.
  rewrite Forall_map. eapply Forall_impl; [|exact Hall].
  intros x Hx. simpl. lia.
Qed.

Lemma scanEvents_sorted (pattern filePath : list byte)
    (reads : list ReadResult) :
  pattern <> [] ->
  forall offset,
    0 <= offset ->
    offset + len (List.concat (processed reads)) < 2 ^ 63 ->
    StronglySorted Z.lt
      (foundOffsets (scanEvents pattern filePath offset reads)) /\
    Forall (fun o => offset <= o)
      (foundOffsets (scanEvents pattern filePath offset reads)).
Proof.
  intros Hne.
  assert (Hp : 0 < len pattern)
    by (destruct pattern; [congruence | unfold len; simpl; lia]).
  induction reads as [|[chunk err] reads IH]; intros offset Hoff Hfit.
  - split; constructor.
  - assert (Hcase : (err = ErrOther \/ len chunk = 0) \/
                    (err <> ErrOther /\ len chunk <> 0)).
    { destruct err; destruct (Z.eq_dec (len chunk) 0); auto;
        right; split; auto; discriminate. }
    destruct Hcase as [Hstop|[He Hn]].
    + assert (Hnil : foundOffsets (scanEvents pattern filePath offset
                                     (mkRead chunk err :: reads)) = []).
      { cbn [scanEvents].
        destruct Hstop as [->|Hz]; [reflexivity|].
        apply Z.eqb_eq in Hz. rewrite Hz. destruct err; reflexivity. }
      rewrite Hnil. split; constructor.
    + rewrite scanEvents_cons, processed_cons in * by assumption.
      cbn [List.concat] in Hfit. rewrite len_app in Hfit.
      pose proof (len_nonneg (List.concat (processed reads))) as Hc.
      pose proof (len_nonneg chunk) as Hk.
      rewrite (wrap64_small (offset + len chunk)) by lia.
      destruct (IH (offset + len chunk)) as [IHs IHb]; [lia | lia |].
      rewrite foundOffsets_app, foundOffsets_found.
      assert (Hmap : map (fun pos => Go.wrap64 (offset + pos))
                       (matches chunk pattern) =
                     map (fun pos => offset + pos) (matches chunk pattern)).
      { apply map_ext_in. intros j Hj. apply matches_bounds in Hj.
        apply wrap64_small. lia. }
      rewrite Hmap. split.
      * apply sorted_app; [apply map_add_sorted, matches_sorted | exact IHs |].
        intros x y Hx Hy. apply in_map_iff in Hx.
        destruct Hx as (j & <- & Hj). apply matches_bounds in Hj.
        rewrite Forall_forall in IHb. specialize (IHb y Hy). lia.
      * apply Forall_app. split.
        -- apply Forall_forall. intros x Hx. apply in_map_iff in Hx.
           destruct Hx as (j & <- & Hj). apply matches_bounds in Hj. lia.
        -- eapply Forall_impl; [|exact IHb]. intros x Hx. simpl in *. lia.
Qed.

(** X5. For a non-empty pattern the offsets printed for a file are
    strictly increasing: no offset is reported twice and none out of
    order, across chunks as within them. *)
Theorem reported_offsets_increasing (pattern filePath : list byte)
    (reads : list ReadResult) (st : State) :
  pattern <> [] ->
  len (List.concat (processed reads)) < 2 ^ 63 ->
  exists evs,
    readLoop pattern filePath 0 reads st = Some (tt, addTrace st evs) /\
    StronglySorted Z.lt (foundOffsets evs).
Proof.
  intros Hne Hfit. exists (scanEvents pattern filePath 0 reads).
  split; [apply readLoop_run|].
  apply scanEvents_sorted; auto; lia.
Qed.

Lemma reported_offsets_increasing_witness :
  exists evs,
    readLoop (str "aa") (str "f") 0
      [mkRead (str "aaa") ErrNil; mkRead (str "aaaa") ErrNil] initial =
    Some (tt, addTrace initial evs) /\
    StronglySorted Z.lt (foundOffsets evs).
Proof.
  apply (reported_offsets_increasing (str "aa") (str "f")
           [mkRead (str "aaa") ErrNil; mkRead (str "aaaa") ErrNil] initial).
  - discriminate.
  - vm_compute; reflexivity.
Defined.

(** The list of offsets printed, chunk after chunk. *)
Lemma foundOffsets_scan (pattern filePath : list byte)
    (reads : list ReadResult) :
  forall offset,
    0 <= offset ->
    offset + len (List.concat (processed reads)) < 2 ^ 63 ->
    foundOffsets (scanEvents pattern filePath offset reads) =
    chunkOffsets pattern offset (processed reads).
Proof.
  induction reads as [|[chunk err] reads IH]; intros offset Hoff Hfit;
    [reflexivity|].
  assert (Hcase : (err = ErrOther \/ len chunk = 0) \/
                  (err <> ErrOther /\ len chunk <> 0)).
  { destruct err; destruct (Z.eq_dec (len chunk) 0); auto;
      right; split; auto; discriminate. }
  destruct Hcase as [Hstop|[He Hn]].
  - destruct (processed_stop chunk err reads Hstop) as [-> _].
    cbn [scanEvents chunkOffsets].
    destruct Hstop as [->|Hz]; [reflexivity|].
    apply Z.eqb_eq in Hz. rewrite Hz. destruct err; reflexivity.
  - rewrite scanEvents_cons, processed_cons in * by assumption.
    cbn [List.concat chunkOffsets] in *. rewrite len_app in Hfit.
    pose proof (len_nonneg (List.concat (processed reads))) as Hc.
    pose proof (len_nonneg chunk) as Hk.
    pose proof (len_nonneg pattern) as Hp.
    rewrite (wrap64_small (offset + len chunk)) by lia.
    rewrite foundOffsets_app, foundOffsets_found, IH by lia.
    f_equal. apply map_ext_in. intros j Hj. apply matches_bounds in Hj.
    apply wrap64_small. lia.
Qed.

Lemma chunkOffsets_app (pattern : list byte) (before after : list (list byte)) :
  forall offset,
    chunkOffsets pattern offset (before ++ after) =
    chunkOffsets pattern offset before
    ++ chunkOffsets pattern (offset + len (List.concat before)) after.
Proof.
  induction before as [|c before IH]; intros offset.
  - cbn [app chunkOffsets List.concat].
    change (len (@nil byte)) with 0. now rewrite Z.add_0_r.
  - cbn [app chunkOffsets List.concat]. rewrite IH, len_app, <- app_assoc.
    now rewrite Z.add_assoc.
Qed.

Lemma matches_empty (data : list byte) :
  matches data [] = zrange 0 (S (List.length data)).
Proof.
  pose proof (findPattern_empty data) as H.
  rewrite findPattern_matches in H. now injection H.
Qed.

(** X6. With a zero-length pattern the end of a chunk and the start of
    the next are both reported: the offset of every boundary between two
    chunks searched is printed twice. *)
Theorem empty_pattern_boundary_twice (filePath : list byte)
    (reads : list ReadResult) (st : State)
    (before after : list (list byte)) (c1 c2 : list byte) :
  processed reads = before ++ c1 :: c2 :: after ->
  len (List.concat (processed reads)) < 2 ^ 63 ->
  exists evs,
    readLoop [] filePath 0 reads st = Some (tt, addTrace st evs) /\
    (2 <= count_occ Z.eq_dec (foundOffsets evs)
            (len (List.concat before) + len c1)%Z)%nat.
Proof.
  intros Hsplit Hfit. exists (scanEvents [] filePath 0 reads).
  split; [apply readLoop_run|].
  rewrite foundOffsets_scan by lia.
  rewrite Hsplit, chunkOffsets_app. cbn [chunkOffsets].
  rewrite !count_occ_app, !matches_empty.
  set (B := len (List.concat before)).
  assert (H1 : (1 <= count_occ Z.eq_dec
                       (map (fun j => (0 + B + j)%Z)
                          (zrange 0%Z (S (List.length c1))))
                       (B + len c1)%Z)%nat).
  { apply count_occ_In, in_map_iff. exists (len c1).
    split; [lia|]. apply In_zrange. unfold len. lia. }
  assert (H2 : (1 <= count_occ Z.eq_dec
                       (map (fun j => (0 + B + len c1 + j)%Z)
                          (zrange 0%Z (S (List.length c2))))
                       (B + len c1)%Z)%nat).
  { apply count_occ_In, in_map_iff. exists 0.
    split; [lia|]. apply In_zrange. lia. }
  lia.
Qed.

Lemma empty_pattern_boundary_twice_witness :
  exists evs,
    readLoop [] (str "f") 0
      [mkRead (str "ab") ErrNil; mkRead (str "c") ErrNil] initial =
    Some (tt, addTrace initial evs) /\
    (2 <= count_occ Z.eq_dec (foundOffsets evs)
            (len (List.concat (@nil (list byte))) + len (str "ab"))%Z)%nat.
Proof.
  apply (empty_pattern_boundary_twice (str "f")
           [mkRead (str "ab") ErrNil; mkRead (str "c") ErrNil] initial
           [] [] (str "ab") (str "c")).
  - reflexivity.
  - vm_compute; reflexivity.
Defined.

Lemma scanEvents_empty_read (pattern filePath : list byte)
    (reads1 reads2 : list ReadResult) (z : ReadResult) :
  rd_data z = [] -> rd_err z <> ErrOther ->
  forall offset,
    scanEvents pattern filePath offset (reads1 ++ z :: reads2) =
    scanEvents pattern filePath offset reads1.
Proof.
  intros Hz He.
  induction reads1 as [|[chunk err] reads1 IH]; intros offset.
  - destruct z as [d e]. simpl in Hz, He. subst d.
    destruct e; [reflexivity | reflexivity | congruence].
  - cbn [app scanEvents]. rewrite IH. reflexivity.
Qed.

(** X7. A read that returns no byte and no error other than end of file
    ends the scan of the file quietly: nothing more is printed for it and
    what later reads would return is never searched. *)
Theorem empty_read_ends_scan (pattern filePath : list byte)
    (reads1 reads2 : list ReadResult) (z : ReadResult) (offset : Z)
    (st : State) :
  rd_data z = [] -> rd_err z <> ErrOther ->
  readLoop pattern filePath offset (reads1 ++ z :: reads2) st =
  readLoop pattern filePath offset reads1 st.
Proof.
  intros Hz He. rewrite !readLoop_run.
  rewrite scanEvents_empty_read by assumption. reflexivity.
Qed.

Lemma empty_read_ends_scan_witness :
  readLoop (str "ab") (str "f") 0
    ([mkRead (str "ab") ErrNil] ++ mkRead [] ErrNil
       :: [mkRead (str "ab") ErrNil]) initial =
  readLoop (str "ab") (str "f") 0 [mkRead (str "ab") ErrNil] initial.
Proof.
  apply (empty_read_ends_scan (str "ab") (str "f")
           [mkRead (str "ab") ErrNil] [mkRead (str "ab") ErrNil]
           (mkRead [] ErrNil) 0 initial).
  - reflexivity.
  - discriminate.
Defined.

(** * Further properties of the loop over the files *)

Lemma scanEvents_scanOnly (pattern filePath : list byte)
    (reads : list ReadResult) :
  forall offset,
    forallb scanOnly (scanEvents pattern filePath offset reads) = true.
Proof.
  induction reads as [|[chunk err] reads IH]; intros offset; [reflexivity|].
  assert (Hgo : forallb scanOnly
                  (if len chunk =? 0 then []
                   else map (fun pos => PrintFound filePath
                                          (Go.wrap64 (offset + pos)))
                          (matches chunk pattern)
                        ++ scanEvents pattern filePath
                             (Go.wrap64 (offset + len chunk)) reads) = true).
  { destruct (len chunk =? 0); [reflexivity|].
    rewrite forallb_app, IH, andb_true_r.
    induction (matches chunk pattern); simpl; auto. }
  cbn [scanEvents]. destruct err; auto.
Qed.

Lemma extract_app :
  forall evs evs',
    openedFds (evs ++ evs') = openedFds evs ++ openedFds evs' /\
    closedFds (evs ++ evs') = closedFds evs ++ closedFds evs' /\
    announced (evs ++ evs') = announced evs ++ announced evs' /\
    completed (evs ++ evs') = completed evs ++ completed evs'.
Proof.
  induction evs as [|e evs IH]; intros evs'; [repeat split|].
  destruct (IH evs') as (H1 & H2 & H3 & H4).
  destruct e; cbn [app openedFds closedFds announced completed];
    rewrite ?H1, ?H2, ?H3, ?H4; repeat split.
Qed.

Lemma extract_scanOnly (evs : list Event) :
  forallb scanOnly evs = true ->
  openedFds evs = [] /\ closedFds evs = [] /\
  announced evs = [] /\ completed evs = [].
Proof.
  induction evs as [|e evs IH]; [repeat split|].
  cbn [forallb]. rewrite andb_true_iff. intros [He Hevs].
  destruct (IH Hevs) as (H1 & H2 & H3 & H4).
  destruct e; try discriminate; repeat split; assumption.
Qed.

Lemma extract_file (fs : FileSystem) (pattern filePath : list byte)
    (fd : nat) :
  openedFds (fileEvents fs pattern filePath fd) =
    (if opens fs filePath then [fd] else []) /\
  closedFds (fileEvents fs pattern filePath fd) = [] /\
  announced (fileEvents fs pattern filePath fd) = [filePath] /\
  completed (fileEvents fs pattern filePath fd) =
    (if opens fs filePath then [filePath] else []).
Proof.
  unfold fileEvents, opens. destruct (fs filePath) as [| |reads];
    try (repeat split; reflexivity).
  cbn [openedFds closedFds announced completed].
  destruct (extract_app (scanEvents pattern filePath 0 reads)
              [PrintCompleted filePath]) as (-> & -> & -> & ->).
  destruct (extract_scanOnly _ (scanEvents_scanOnly pattern filePath reads 0))
    as (-> & -> & -> & ->).
  repeat split.
Qed.

Lemma extract_batch (fs : FileSystem) (pattern : list byte)
    (files : list (list byte)) :
  forall fd,
    openedFds (batchEvents fs pattern files fd) = batchFds fs files fd /\
    closedFds (batchEvents fs pattern files fd) = [] /\
    announced (batchEvents fs pattern files fd) = files /\
    completed (batchEvents fs pattern files fd) = filter (opens fs) files.
Proof.
  induction files as [|f files IH]; intros fd; [repeat split|].
  cbn [batchEvents batchFds filter].
  destruct (extract_app (fileEvents fs pattern f fd)
              (batchEvents fs pattern files
                 (if opens fs f then S fd else fd))) as (-> & -> & -> & ->).
  destruct (extract_file fs pattern f fd) as (-> & -> & -> & ->).
  destruct (IH (if opens fs f then S fd else fd)) as (-> & -> & -> & ->).
  destruct (opens fs f); repeat split.
Qed.

Lemma batchFds_ge (fs : FileSystem) (files : list (list byte)) :
  forall fd x, In x (batchFds fs files fd) -> (fd <= x)%nat.
Proof.
  induction files as [|f files IH]; intros fd x Hx; [destruct Hx|].
  cbn [batchFds] in Hx. destruct (opens fs f).
  - destruct Hx as [<-|Hx]; [lia|]. apply IH in Hx. lia.
  - apply IH, Hx.
Qed.

Lemma batchFds_NoDup (fs : FileSystem) (files : list (list byte)) :
  forall fd, NoDup (batchFds fs files fd).
Proof.
  induction files as [|f files IH]; intros fd; [constructor|].
  cbn [batchFds]. destruct (opens fs f); [|apply IH].
  constructor; [|apply IH].
  intros Hin. apply batchFds_ge in Hin. lia.
Qed.

(** X8. By the time [main] returns every file it opened has been closed
    exactly once, the file opened last first, and no deferred call is
    left; no descriptor is opened twice. *)
Theorem every_handle_closed_once (fs : FileSystem) (pattern : list byte)
    (files : list (list byte)) :
  exists st',
    mainLoop fs pattern files initial = Some (tt, st') /\
    closedFds (trace st') = rev (openedFds (trace st')) /\
    NoDup (openedFds (trace st')) /\
    deferred st' = [].
Proof.
  eexists. split; [apply mainLoop_run|].
  cbn [trace deferred initial nextFd app].
  destruct (extract_batch fs pattern files 3) as (Ho & Hc & _ & _).
  destruct (extract_app (batchEvents fs pattern files 3)
              (PrintSearchComplete :: WaitEnter
               :: map SysClose (rev (batchFds fs files 3) ++ [])))
    as (-> & -> & _ & _).
  rewrite Ho, Hc, app_nil_r. cbn [app openedFds closedFds].
  assert (Hcl : forall l, closedFds (map SysClose l) = l
                          /\ openedFds (map SysClose l) = [])
    by (induction l as [|x l [IH1 IH2]]; simpl; [|rewrite IH1]; auto).
  destruct (Hcl (rev (batchFds fs files 3))) as [-> ->].
  rewrite app_nil_r. repeat split. apply batchFds_NoDup.
Qed.


(** X10. A file that does not exist or cannot be opened costs two lines
    and nothing else: the rest of the run, descriptors included, is what
    it would be without that file in the batch. *)
Theorem unopenable_file_skipped (fs : FileSystem) (pattern : list byte)
    (before after : list (list byte)) (filePath : list byte) (st : State) :
  opens fs filePath = false ->
  exists msg T1 T2 d n,
    (fs filePath = NotExist /\ msg = PrintNotExist filePath \/
     fs filePath = OpenFails /\ msg = PrintOpenError filePath) /\
    searchFiles fs pattern (before ++ after) st =
    Some (tt, mkState (T1 ++ T2) d n) /\
    searchFiles fs pattern (before ++ filePath :: after) st =
    Some (tt, mkState (T1 ++ [PrintSearching filePath; msg] ++ T2) d n).
Proof.
  intros Hno.
  set (fd1 := (nextFd st + List.length (batchFds fs before (nextFd st)))%nat).
  exists (match fs filePath with
          | OpenFails => PrintOpenError filePath
          | _ => PrintNotExist filePath
          end),
    (trace st ++ batchEvents fs pattern before (nextFd st)),
    (batchEvents fs pattern after fd1),
    (rev (batchFds fs (before ++ after) (nextFd st)) ++ deferred st),
    (nextFd st + List.length (batchFds fs (before ++ after) (nextFd st)))%nat.
  assert (Hfds : forall l fd,
             batchFds fs (before ++ l) fd =
             batchFds fs before fd
             ++ batchFds fs l (fd + List.length (batchFds fs before fd))).
  { intros l. induction before as [|b before IH]; intros fd.
    - cbn [app batchFds List.length]. now rewrite Nat.add_0_r.
    - cbn [app batchFds]. destruct (opens fs b).
      + rewrite IH. cbn [app List.length]. do 3 f_equal. lia.
      + apply IH. }
  split; [|split].
  - unfold opens in Hno. destruct (fs filePath); auto; discriminate.
  - rewrite searchFiles_run, batchEvents_app, app_assoc. reflexivity.
  - rewrite searchFiles_run, batchEvents_app.
    rewrite (Hfds (filePath :: after)), (Hfds after).
    cbn [batchEvents batchFds]. rewrite Hno.
    unfold fileEvents. unfold opens in Hno.
    destruct (fs filePath); try discriminate;
      cbn [app]; rewrite <- !app_assoc; reflexivity.
Qed.

Lemma unopenable_file_skipped_witness :
  exists msg T1 T2 d n,
    (twoFiles (str "none") = NotExist /\ msg = PrintNotExist (str "none") \/
     twoFiles (str "none") = OpenFails /\ msg = PrintOpenError (str "none"))
    /\
    searchFiles twoFiles (str "ab") ([str "bad"] ++ [str "good"]) initial =
    Some (tt, mkState (T1 ++ T2) d n) /\
    searchFiles twoFiles (str "ab")
      ([str "bad"] ++ str "none" :: [str "good"]) initial =
    Some (tt, mkState (T1 ++ [PrintSearching (str "none"); msg] ++ T2) d n).
Proof.
  apply (unopenable_file_skipped twoFiles (str "ab") [str "bad"]
           [str "good"] (str "none") initial).
  reflexivity.
Defined.

(** * Further properties of [parsePattern] *)

Lemma fieldsLoop_chars (s : list byte) :
  Forall (fun c => isHexDigit c = true \/ c = "x"%char) s ->
  forall field spans,
    strings.fieldsLoop unicode.IsSpace s 0 (Some field) spans =
    spans ++ [field ++ s].
Proof.
  induction 1 as [|c s Hc _ IH]; intros field spans.
  - simpl. now rewrite app_nil_r.
  - rewrite fieldsLoop_char by exact Hc. rewrite IH, <- app_assoc.
    reflexivity.
Qed.

(** A non-empty string of token characters is one field. *)
Lemma Fields_single (s : list byte) :
  s <> [] ->
  Forall (fun c => isHexDigit c = true \/ c = "x"%char) s ->
  strings.Fields s = [s].
Proof.
  intros Hne Hs. destruct s as [|c s]; [congruence|].
  inversion Hs as [|? ? Hc Hs']; subst.
  unfold strings.Fields, strings.FieldsFunc.
  rewrite fieldsLoop_char by exact Hc.
  rewrite fieldsLoop_chars by exact Hs'. reflexivity.
Qed.

Lemma hex_chars_token (s : list byte) :
  forallb isHexDigit s = true ->
  Forall (fun c => isHexDigit c = true \/ c = "x"%char) s.
Proof.
  rewrite forallb_forall, Forall_forall. intros H c Hc. left. auto.
Qed.

(** Where the loop over the tokens returns an error, it returns no
    pattern and the error carries the first token, prefix stripped, that
    is not two hexadecimal digits. *)
Lemma parseParts_error_inv (parts : list (list byte)) :
  forall done pattern e,
    parseParts parts (len done) (done ++ make (List.length parts)) =
    Some (pattern, Some e) ->
    pattern = [] /\
    exists good bad rest,
      parts = good ++ bad :: rest /\
      Forall (fun p => partByte p <> None) good /\
      partByte bad = None /\
      e = InvalidByteFormat (strings.TrimPrefix bad (str "0x")).
Proof.
  induction parts as [|p parts IH]; intros done pattern e H.
  - discriminate.
  - destruct (partByte p) as [v|] eqn:Hp.
    + cbn [parseParts] in H. rewrite (partByte_Some_inv _ _ Hp) in H.
      change (make (List.length (p :: parts)))
        with (zero :: make (List.length parts)) in H.
      change (negb (len [v] =? 1)) with false in H.
      change (Go.index [v] 0) with (Some v) in H.
      cbv iota in H. rewrite assign_app in H.
      replace (len done + 1) with (len (done ++ [v])) in H
        by (unfold len; rewrite length_app; simpl; lia).
      replace (done ++ v :: make (List.length parts))
        with ((done ++ [v]) ++ make (List.length parts)) in H
        by (rewrite <- app_assoc; reflexivity).
      destruct (IH _ _ _ H) as (-> & good & bad & rest & -> & Hg & Hb & ->).
      split; [reflexivity|].
      exists (p :: good), bad, rest. repeat split; auto.
      constructor; [congruence | exact Hg].
    + assert (Hr : parseParts (p :: parts) (len done)
                     (done ++ make (List.length (p :: parts))) =
                   Some ([], Some (InvalidByteFormat
                                     (strings.TrimPrefix p (str "0x"))))).
      { cbn [parseParts]. unfold partByte in Hp.
        destruct (hex.DecodeString _) as [bv [e'|]]; [reflexivity|].
        destruct bv as [|x [|y l]];
          [reflexivity | discriminate |].
        replace (negb (len (x :: y :: l) =? 1)) with true; [reflexivity|].
        symmetry. apply negb_true_iff, Z.eqb_neq.
        unfold len; simpl List.length; lia. }
      rewrite Hr in H. injection H as <- <-.
      split; [reflexivity|].
      exists [], p, parts. repeat split; auto.
Qed.

(** X11. When [parsePattern] returns an error it returns no pattern
    with it, and the error carries the first whitespace-separated token
    that is not two hexadecimal digits, without its ["0x"] prefix; the
    tokens before it are all valid. *)
Theorem error_names_first_bad_token (input pattern : list byte) (e : error) :
  parsePattern input = Some (pattern, Some e) ->
  pattern = [] /\
  exists good bad rest,
    strings.Fields input = good ++ bad :: rest /\
    Forall (fun tok =>
              isHexByte (strings.TrimPrefix tok (str "0x")) = true) good /\
    isHexByte (strings.TrimPrefix bad (str "0x")) = false /\
    e = InvalidByteFormat (strings.TrimPrefix bad (str "0x")).
Proof.
  unfold parsePattern.
  destruct (hex.DecodeString input) as [p [e'|]]; [|discriminate].
  intros H.
  destruct (parseParts_error_inv (strings.Fields input) [] pattern e H)
    as (-> & good & bad & rest & Hf & Hg & Hb & ->).
  split; [reflexivity|].
  exists good, bad, rest. repeat split; auto.
  - eapply Forall_impl; [|exact Hg].
    intros tok Htok. simpl in Htok.
    destruct (isHexByte (strings.TrimPrefix tok (str "0x"))) eqn:E;
      [reflexivity|].
    apply partByte_None_iff in E. contradiction.
  - apply partByte_None_iff, Hb.
Qed.

Lemma error_names_first_bad_token_witness :
  @nil byte = [] /\
  exists good bad rest,
    strings.Fields (str "0xDE zz 0xQQ") = good ++ bad :: rest /\
    Forall (fun tok =>
              isHexByte (strings.TrimPrefix tok (str "0x")) = true) good /\
    isHexByte (strings.TrimPrefix bad (str "0x")) = false /\
    InvalidByteFormat (str "zz") =
    InvalidByteFormat (strings.TrimPrefix bad (str "0x")).
Proof.
  apply (error_names_first_bad_token (str "0xDE zz 0xQQ") []
           (InvalidByteFormat (str "zz"))).
  reflexivity.
Defined.

Lemma parsePattern_single_bad (s tok : list byte) :
  isHexString s = false ->
  strings.Fields s = [tok] ->
  isHexByte (strings.TrimPrefix tok (str "0x")) = false ->
  parsePattern s =
  Some ([], Some (InvalidByteFormat (strings.TrimPrefix tok (str "0x")))).
Proof.
  intros Hs Hf Hb. unfold parsePattern, hex.DecodeString.
  pose proof (Decode_None_iff s []) as Hok.
  destruct (hex.Decode [] s) as [p [e|]]; simpl in Hok.
  - rewrite Hf. apply partByte_None_iff in Hb.
    assert (Hex : Exists (fun p => partByte p = None) [tok])
      by (constructor; exact Hb).
    destruct (parseParts_bad0 [tok] Hex) as [part Hpart].
    destruct (parseParts_error_inv [tok] [] _ _ Hpart)
      as (_ & good & bad & rest & Hsplit & _ & _ & He).
    destruct good as [|g [|g' good]]; try discriminate.
    injection Hsplit as <- _. rewrite Hpart, He. reflexivity.
  - destruct Hok as [Hok _]. rewrite (Hok eq_refl) in Hs. discriminate.
Qed.

Lemma TrimPrefix_hex (s : list byte) :
  forallb isHexDigit s = true -> strings.TrimPrefix s (str "0x") = s.
Proof.
  intros Hs. unfold strings.TrimPrefix.
  replace (strings.HasPrefix s (str "0x")) with false; [reflexivity|].
  destruct s as [|c1 [|c2 s]]; cbn [strings.HasPrefix str list_ascii_of_string];
    [reflexivity | now rewrite andb_false_r |].
  cbn [forallb] in Hs. rewrite !andb_true_iff in Hs.
  destruct Hs as (_ & H2 & _).
  destruct (Ascii.eqb c2 "x") eqn:Ex.
  - apply Ascii.eqb_eq in Ex. rewrite Ex in H2. discriminate.
  - cbn [andb]. now rewrite andb_false_r.
Qed.

Lemma isHexByte_length (s : list byte) :
  isHexByte s = true -> List.length s = 2%nat.
Proof. destruct s as [|a [|b [|c s]]]; simpl; congruence. Qed.

(** X12. A run of hexadecimal digits of odd length is rejected: it is
    not a hex string, and as a single token it is not one byte. *)
Theorem odd_hex_rejected (s : list byte) :
  forallb isHexDigit s = true ->
  Nat.odd (List.length s) = true ->
  parsePattern s = Some ([], Some (InvalidByteFormat s)).
Proof.
  intros Hs Hodd.
  assert (Hne : s <> []) by (destruct s; [discriminate | congruence]).
  rewrite <- (TrimPrefix_hex s Hs) at 2.
  apply parsePattern_single_bad.
  - unfold isHexString. rewrite <- Nat.negb_odd, Hodd. reflexivity.
  - apply Fields_single; [exact Hne | apply hex_chars_token, Hs].
  - rewrite TrimPrefix_hex by exact Hs.
    destruct (isHexByte s) eqn:E; [|reflexivity].
    apply isHexByte_length in E. rewrite E in Hodd. discriminate.
Qed.

Lemma odd_hex_rejected_witness :
  parsePattern (str "abc") = Some ([], Some (InvalidByteFormat (str "abc"))).
Proof.
  apply (odd_hex_rejected (str "abc")); reflexivity.
Defined.

(** X13. The ["0x"] prefix is understood on single bytes only: ["0x"]
    followed by a run of hexadecimal digits is rejected unless the run
    is exactly two digits, so ["0x"] alone and ["0xdeadbeef"] are
    errors. *)
Theorem prefixed_run_rejected (s : list byte) :
  forallb isHexDigit s = true ->
  List.length s <> 2%nat ->
  parsePattern (str "0x" ++ s) = Some ([], Some (InvalidByteFormat s)).
Proof.
  intros Hs Hlen.
  assert (Htrim : strings.TrimPrefix (str "0x" ++ s) (str "0x") = s)
    by (destruct s; reflexivity).
  rewrite <- Htrim at 2.
  apply parsePattern_single_bad.
  - unfold isHexString. cbn [str list_ascii_of_string app forallb].
    replace (isHexDigit "x"%char) with false by reflexivity.
    cbn [andb]. now rewrite !andb_false_r.
  - apply Fields_single; [discriminate|].
    cbn [str list_ascii_of_string app].
    constructor; [left; reflexivity|].
    constructor; [right; reflexivity|].
    apply hex_chars_token, Hs.
  - rewrite Htrim. destruct (isHexByte s) eqn:E; [|reflexivity].
    apply isHexByte_length in E. contradiction.
Qed.

Lemma prefixed_run_rejected_witness :
  parsePattern (str "0x" ++ str "deadbeef") =
  Some ([], Some (InvalidByteFormat (str "deadbeef"))).
Proof.
  apply (prefixed_run_rejected (str "deadbeef")).
  - reflexivity.
  - discriminate.
Defined.

Lemma reverseHexTable_upper (c : byte) :
  hex.reverseHexTable (upper c) = hex.reverseHexTable c.
Proof. each_byte c. Qed.

Lemma isHexString_cons2 (a b : byte) (s : list byte) :
  isHexString (a :: b :: s) = isHexDigit a && (isHexDigit b && isHexString s).
Proof.
  unfold isHexString; cbn [List.length Nat.even forallb].
  destruct (isHexDigit a), (isHexDigit b), (Nat.even (List.length s));
    reflexivity.
Qed.

(** On a hex string [Decode] depends on the values of the digits only. *)
Lemma Decode_table_ext (s : list byte) :
  forall s' dst,
    isHexString s = true ->
    map hex.reverseHexTable s' = map hex.reverseHexTable s ->
    hex.Decode dst s' = hex.Decode dst s.
Proof.
  induction s as [|a|a b s IH] using list_pair_ind; intros s' dst Hs Hmap.
  - destruct s'; [reflexivity | discriminate].
  - discriminate.
  - destruct s' as [|a' [|b' s']]; try discriminate.
    cbn [map] in Hmap. injection Hmap as Ha Hb Hmap.
    rewrite isHexString_cons2, !andb_true_iff in Hs.
    destruct Hs as (Hda & Hdb & Hs).
    rewrite isHexDigit_table in Hda, Hdb.
    apply negb_true_iff in Hda, Hdb.
    cbn [hex.Decode]. rewrite Ha, Hb, Hda, Hdb.
    apply IH; assumption.
Qed.

(** X14. Hex mode does not distinguish upper and lower case: two inputs
    that differ only in the case of their letters, one of them a
    contiguous hex string, parse to the same pattern. *)
Theorem hex_mode_ignores_case (s s' : list byte) :
  isHexString s = true ->
  map upper s' = map upper s ->
  parsePattern s' = parsePattern s /\
  exists pattern, parsePattern s = Some (pattern, None).
Proof.
  intros Hs Hup.
  assert (Hmap : map hex.reverseHexTable s' = map hex.reverseHexTable s).
  { rewrite <- (map_ext _ _ reverseHexTable_upper s').
    rewrite <- (map_ext _ _ reverseHexTable_upper s).
    rewrite <- !(map_map upper hex.reverseHexTable). now rewrite Hup. }
  unfold parsePattern, hex.DecodeString.
  rewrite (Decode_table_ext s s' [] Hs Hmap).
  pose proof (Decode_None_iff s []) as Hok.
  destruct (hex.Decode [] s) as [p [e|]]; simpl in Hok.
  - destruct Hok as [_ Hok]. discriminate (Hok Hs).
  - split; [reflexivity | eauto].
Qed.

Lemma hex_mode_ignores_case_witness :
  parsePattern (str "DeadBEEF") = parsePattern (str "deadbeef") /\
  exists pattern, parsePattern (str "deadbeef") = Some (pattern, None).
Proof.
  apply (hex_mode_ignores_case (str "deadbeef") (str "DeadBEEF"));
    reflexivity.
Defined.

Lemma even_div2 (n : nat) :
  Nat.even n = true -> (2 * Nat.div2 n = n)%nat.
Proof.
  intros H. apply Nat.even_spec in H. destruct H as [k ->].
  now rewrite Nat.div2_double.
Qed.

(** X15. The length of a pattern returned without error: half the
    number of characters of the input in hex mode, the number of
    whitespace-separated tokens otherwise. *)
Theorem pattern_length (input pattern : list byte) :
  parsePattern input = Some (pattern, None) ->
  isHexString input = true /\ 2 * len pattern = len input \/
  isHexString input = false /\ len pattern = len (strings.Fields input).
Proof.
  unfold parsePattern, hex.DecodeString.
  pose proof (Decode_None_iff input []) as Hok.
  pose proof (Decode_fst_length input []) as Hlen.
  destruct (hex.Decode [] input) as [p [e|]]; simpl in Hok, Hlen.
  - intros H. right.
    assert (Hs : isHexString input = false).
    { destruct (isHexString input); [|reflexivity].
      destruct Hok as [_ Hok]. discriminate (Hok eq_refl). }
    split; [exact Hs|].
    destruct (parts_dichotomy (strings.Fields input)) as [[vs Hv]|Hbad].
    + rewrite (parseParts_all0 _ _ Hv) in H. injection H as <-.
      unfold len. f_equal. symmetry. eapply Forall2_length, Hv.
    + destruct (parseParts_bad0 _ Hbad) as [part Hp].
      rewrite Hp in H. discriminate.
  - intros [= <-]. left.
    assert (Hs : isHexString input = true) by (apply Hok; reflexivity).
    split; [exact Hs|].
    specialize (Hlen eq_refl). simpl in Hlen.
    unfold isHexString in Hs. apply andb_true_iff in Hs.
    destruct Hs as [Hev _]. apply even_div2 in Hev.
    unfold len. lia.
Qed.

Lemma pattern_length_witness :
  isHexString (str "DE 0xAD") = true /\
  2 * len (map ascii_of_N [0xDE; 0xAD]%N) = len (str "DE 0xAD") \/
  isHexString (str "DE 0xAD") = false /\
  len (map ascii_of_N [0xDE; 0xAD]%N) = len (strings.Fields (str "DE 0xAD")).
Proof.
  apply (pattern_length (str "DE 0xAD") (map ascii_of_N [0xDE; 0xAD]%N)).
  reflexivity.
Defined.

(** The bytes [parsePattern] returns on a line of tokens. *)
Lemma parsePattern_line (lead : list utf8.rune)
    (items : list (Token * list utf8.rune)) :
  forallb unicode.IsSpace lead = true ->
  separated items = true ->
  parsePattern (utf8.EncodeRunes lead ++ line items) =
  Some (map (fun it => tokenByte (fst it)) items, None).
Proof.
  intros Hlead Hsep.
  unfold parsePattern, hex.DecodeString.
  pose proof (Decode_None_iff (utf8.EncodeRunes lead ++ line items) [])
    as Hok.
  destruct (hex.Decode [] (utf8.EncodeRunes lead ++ line items))
    as [pattern [e|]] eqn:E; simpl in Hok.
  - rewrite Fields_line by assumption.
    apply parseParts_all0, separated_valid, Hsep.
  - destruct Hok as [Hok _]. specialize (Hok eq_refl).
    unfold isHexString in Hok. apply andb_true_iff in Hok.
    destruct Hok as [_ Hhex].
    destruct (hex_line lead items Hlead Hsep Hhex) as [-> [->|(t & -> & Ht)]].
    + simpl in E. injection E as <-. reflexivity.
    + cbn [separated] in Hsep. rewrite !andb_true_iff in Hsep.
      destruct Hsep as [[Hv _] _].
      pose proof (partByte_tokenText t Hv) as Hp.
      apply partByte_Some_inv in Hp. unfold hex.DecodeString in Hp.
      destruct t as [p h l]. simpl in Ht. subst p.
      change (strings.TrimPrefix (tokenText (mkToken false h l)) (str "0x"))
        with (strings.TrimPrefix [h; l] (str "0x")) in Hp.
      assert (Htrim : strings.TrimPrefix [h; l] (str "0x") = [h; l]).
      { apply TrimPrefix_digits. unfold validToken in Hv.
        apply andb_true_iff in Hv. apply Hv. }
      rewrite Htrim in Hp.
      change (utf8.EncodeRunes [] ++ line [(mkToken false h l, [])])
        with [h; l] in E.
      rewrite Hp in E. injection E as <-. reflexivity.
Qed.

Lemma Decode_digits (items : list (Token * list utf8.rune)) :
  separated items = true ->
  forall dst,
    hex.Decode dst (flat_map (fun it => digits (fst it)) items) =
    (dst ++ map (fun it => tokenByte (fst it)) items, None).
Proof.
  induction items as [|[t ws] items IH]; intros Hsep dst.
  - simpl. now rewrite app_nil_r.
  - cbn [separated] in Hsep. rewrite !andb_true_iff in Hsep.
    destruct Hsep as [[Hv _] Hrest]. unfold validToken in Hv.
    apply andb_true_iff in Hv. destruct Hv as [Hhi Hlo].
    rewrite isHexDigit_table in Hhi, Hlo. apply negb_true_iff in Hhi, Hlo.
    cbn [flat_map fst digits app map hex.Decode]. rewrite Hhi, Hlo.
    assert (Hsep' : separated items = true).
    { destruct items; [reflexivity|].
      apply andb_true_iff in Hrest. apply Hrest. }
    rewrite (IH Hsep'), <- app_assoc. reflexivity.
Qed.

(** X16. The two input modes agree: a line of two-digit tokens, with or
    without ["0x"] prefixes and whatever the white space around them,
    parses to the same pattern as its digits written as one contiguous
    hex string. *)
Theorem tokenized_agrees_with_hex (lead : list utf8.rune)
    (items : list (Token * list utf8.rune)) :
  forallb unicode.IsSpace lead = true ->
  separated items = true ->
  parsePattern (utf8.EncodeRunes lead ++ line items) =
  parsePattern (flat_map (fun it => digits (fst it)) items).
Proof.
  intros Hlead Hsep. rewrite parsePattern_line by assumption.
  unfold parsePattern, hex.DecodeString.
  rewrite (Decode_digits items Hsep []). reflexivity.
Qed.

Lemma tokenized_agrees_with_hex_witness :
  parsePattern (str "0xDE AD") = parsePattern (str "DEAD").
Proof.
  apply (tokenized_agrees_with_hex []
           [(mkToken true "D"%char "E"%char, [32%N]);
            (mkToken false "A"%char "D"%char, [])]);
    reflexivity.
Defined.

(** X17. An input made of white space only is accepted and gives the
    zero-length pattern. *)
Theorem blank_input_empty_pattern (ws : list utf8.rune) :
  forallb unicode.IsSpace ws = true ->
  parsePattern (utf8.EncodeRunes ws) = Some ([], None).
Proof.
  intros Hws.
  pose proof (parsePattern_line ws [] Hws eq_refl) as H.
  cbn [line map] in H. now rewrite app_nil_r in H.
Qed.

Lemma blank_input_empty_pattern_witness :
  parsePattern (utf8.EncodeRunes [32%N; 9%N; 0x3000%N]) = Some ([], None).
Proof.
  apply (blank_input_empty_pattern [32%N; 9%N; 0x3000%N]). reflexivity.
Defined.

(** * Properties of the prompts *)

Lemma parsePattern_total (input : list byte) :
  exists result, parsePattern input = Some result.
Proof.
  unfold parsePattern. destruct (hex.DecodeString input) as [p [e|]]; [|eauto].
  destruct (parts_dichotomy (strings.Fields input)) as [[vs H]|H].
  - rewrite (parseParts_all0 _ _ H). eauto.
  - destruct (parseParts_bad0 _ H) as [part ->]. eauto.
Qed.

Lemma rejected_cases (l : list byte) :
  (rejected l = true /\
   exists e, parsePattern (trim.TrimSpace l) = Some ([], Some e)) \/
  (rejected l = false /\
   exists pattern, parsePattern (trim.TrimSpace l) = Some (pattern, None)).
Proof.
  unfold rejected.
  destruct (parsePattern_total (trim.TrimSpace l)) as [[p [e|]] H].
  - left. rewrite H. split; [reflexivity|].
    destruct (parts_dichotomy (strings.Fields (trim.TrimSpace l)))
      as [[vs Hv]|Hbad]; unfold parsePattern in H;
      destruct (hex.DecodeString (trim.TrimSpace l)) as [q [e'|]];
      try discriminate.
    + rewrite (parseParts_all0 _ _ Hv) in H. discriminate.
    + destruct (parseParts_bad0 _ Hbad) as [part Hp].
      rewrite Hp in H. injection H as <- <-. eauto.
  - right. rewrite H. eauto.
Qed.

Lemma promptLoop_rejected (before : list (list byte)) :
  forallb rejected before = true ->
  forall stdin out,
    promptLoop (before ++ stdin) out =
    promptLoop stdin
      (out ++ flat_map (fun _ => [PrintPatternPrompt; PrintInvalidPattern])
                before).
Proof.
  induction before as [|l before IH]; intros Hrej stdin out.
  - simpl. now rewrite app_nil_r.
  - cbn [forallb] in Hrej. apply andb_true_iff in Hrej.
    destruct Hrej as [Hl Hrej].
    destruct (rejected_cases l) as [[_ [e He]]|[Hf _]]; [|congruence].
    cbn [app promptLoop flat_map]. rewrite He, IH by exact Hrej.
    now rewrite <- app_assoc.
Qed.



(** X19. The pattern used is that of the first line that parses: each
    line before it is answered with the invalid-format message and a
    new prompt, and the lines after it are left unread. *)
Theorem first_valid_line_accepted (before rest : list (list byte))
    (patternInput pattern : list byte) :
  forallb rejected before = true ->
  parsePattern (trim.TrimSpace patternInput) = Some (pattern, None) ->
  promptLoop (before ++ patternInput :: rest) [] =
  Accepted pattern
    (flat_map (fun _ => [PrintPatternPrompt; PrintInvalidPattern]) before
     ++ [PrintPatternPrompt])
    rest.
Proof.
  intros Hrej Hok. rewrite promptLoop_rejected by exact Hrej.
  cbn [promptLoop app]. rewrite Hok. reflexivity.
Qed.

Lemma first_valid_line_accepted_witness :
  promptLoop ([str "zz"] ++ str "0xDE 0xAD" :: [str "more"]) [] =
  Accepted (map ascii_of_N [0xDE; 0xAD]%N)
    (flat_map (fun _ => [PrintPatternPrompt; PrintInvalidPattern])
       [str "zz"]
     ++ [PrintPatternPrompt])
    [str "more"].
Proof.
  apply (first_valid_line_accepted [str "zz"] [str "more"]
           (str "0xDE 0xAD") (map ascii_of_N [0xDE; 0xAD]%N));
    reflexivity.
Defined.

(** X20. When the input ends before any line has parsed, the loop ends
    all the same, with the zero-length pattern: the empty string read at
    the end of the input is a valid hex string. *)
Theorem exhausted_input_empty_pattern (stdin : list (list byte)) :
  forallb rejected stdin = true ->
  promptLoop stdin [] =
  Accepted []
    (flat_map (fun _ => [PrintPatternPrompt; PrintInvalidPattern]) stdin
     ++ [PrintPatternPrompt])
    [].
Proof.
  intros Hrej.
  rewrite <- (app_nil_r stdin) at 1.
  rewrite promptLoop_rejected by exact Hrej. reflexivity.
Qed.

Lemma exhausted_input_empty_pattern_witness :
  promptLoop [str "zz"; str "0x"] [] =
  Accepted []
    (flat_map (fun _ => [PrintPatternPrompt; PrintInvalidPattern])
       [str "zz"; str "0x"]
     ++ [PrintPatternPrompt])
    [].
Proof.
  apply (exhausted_input_empty_pattern [str "zz"; str "0x"]). reflexivity.
Defined.

Lemma asciiSpace_ascii (c : byte) :
  trim.asciiSpace c = true -> (0x80 <=? N_of_ascii c)%N = false.
Proof. each_byte c; discriminate. Qed.

Lemma solid_inv (c : byte) :
  solid c = true ->
  (0x80 <=? N_of_ascii c)%N = false /\ trim.asciiSpace c = false.
Proof. each_byte c; auto; discriminate. Qed.

Lemma TrimSpace_pad_left (pad s : list byte) :
  forallb trim.asciiSpace pad = true ->
  trim.TrimSpace (pad ++ s) = trim.TrimSpace s.
Proof.
  induction pad as [|c pad IH]; intros Hpad; [reflexivity|].
  cbn [forallb] in Hpad. apply andb_true_iff in Hpad.
  destruct Hpad as [Hc Hpad].
  cbn [app trim.TrimSpace]. rewrite (asciiSpace_ascii c Hc), Hc.
  apply IH, Hpad.
Qed.

Lemma trimSpaceRight_pad (pad r : list byte) :
  forallb trim.asciiSpace pad = true ->
  trim.trimSpaceRight (pad ++ r) = trim.trimSpaceRight r.
Proof.
  induction pad as [|c pad IH]; intros Hpad; [reflexivity|].
  cbn [forallb] in Hpad. apply andb_true_iff in Hpad.
  destruct Hpad as [Hc Hpad].
  cbn [app trim.trimSpaceRight]. rewrite (asciiSpace_ascii c Hc), Hc.
  apply IH, Hpad.
Qed.

Lemma forallb_rev {A : Type} (f : A -> bool) (l : list A) :
  forallb f (rev l) = forallb f l.
Proof.
  induction l as [|a l IH]; [reflexivity|].
  cbn [rev forallb]. rewrite forallb_app, IH. cbn [forallb].
  destruct (f a), (forallb f l); reflexivity.
Qed.

(** [TrimSpace] removes the ASCII white space on both sides of a text
    that starts and ends with ASCII characters that are not white
    space, and nothing else. *)
Lemma TrimSpace_ascii (pad1 body pad2 : list byte) :
  forallb trim.asciiSpace pad1 = true ->
  forallb trim.asciiSpace pad2 = true ->
  solid (hd zero body) = true ->
  solid (last body zero) = true ->
  trim.TrimSpace (pad1 ++ body ++ pad2) = body.
Proof.
  intros H1 H2 Hhd Hlast. rewrite TrimSpace_pad_left by exact H1.
  destruct body as [|b body].
  - cbn [app]. rewrite <- (app_nil_r pad2).
    now rewrite TrimSpace_pad_left.
  - cbn [hd] in Hhd. destruct (solid_inv b Hhd) as [Hb1 Hb2].
    cbn [app trim.TrimSpace]. rewrite Hb1, Hb2.
    change (b :: body ++ pad2) with ((b :: body) ++ pad2).
    rewrite rev_app_distr.
    rewrite trimSpaceRight_pad by (rewrite forallb_rev; exact H2).
    assert (Hne : b :: body <> []) by discriminate.
    rewrite (app_removelast_last zero Hne) at 1.
    rewrite rev_app_distr. cbn [rev app trim.trimSpaceRight].
    destruct (solid_inv _ Hlast) as [Hl1 Hl2].
    unfold byte in *. rewrite Hl1, Hl2.
    cbn [rev]. rewrite rev_involutive.
    symmetry. apply app_removelast_last, Hne.
Qed.

Lemma hexdigit_solid (k : N) : solid (hex.hexdigit k) = true.
Proof.
  unfold hex.hexdigit.
  destruct (nth_in_or_default (N.to_nat k) hex.hextable zero) as [H| ->];
    [|reflexivity].
  revert H. generalize (nth (N.to_nat k) hex.hextable zero). intros c H.
  unfold hex.hextable in H. simpl in H.
  repeat (destruct H as [<-|H]; [reflexivity|]). destruct H.
Qed.

Lemma Encode_ends (bs : list byte) :
  solid (hd zero (hex.EncodeToString bs)) = true /\
  solid (last (hex.EncodeToString bs) zero) = true.
Proof.
  split.
  - destruct bs as [|v bs]; [reflexivity|]. apply hexdigit_solid.
  - destruct bs as [|v bs] using rev_ind; [reflexivity|].
    unfold hex.EncodeToString. rewrite flat_map_app. cbn [flat_map].
    rewrite app_nil_r.
    match goal with
    | |- solid (last (?l ++ [?a; ?b]) _) = true =>
        replace (l ++ [a; b]) with ((l ++ [a]) ++ [b])
          by (rewrite <- app_assoc; reflexivity)
    end.
    rewrite last_last. apply hexdigit_solid.
Qed.

(** X21. Typing the hexadecimal form of any byte sequence, with ASCII
    white space before or after it (the line end, a carriage return,
    blanks), makes that byte sequence the pattern at the first prompt. *)
Theorem typed_hex_line_accepted (bs pad1 pad2 : list byte)
    (rest : list (list byte)) :
  forallb trim.asciiSpace pad1 = true ->
  forallb trim.asciiSpace pad2 = true ->
  promptLoop ((pad1 ++ hex.EncodeToString bs ++ pad2) :: rest) [] =
  Accepted bs [PrintPatternPrompt] rest.
Proof.
  intros H1 H2. cbn [promptLoop app].
  destruct (Encode_ends bs) as [Hhd Hlast].
  rewrite TrimSpace_ascii by assumption.
  unfold parsePattern, hex.DecodeString. rewrite Decode_Encode.
  reflexivity.
Qed.

Lemma typed_hex_line_accepted_witness :
  promptLoop
    ((str " " ++ hex.EncodeToString (map ascii_of_N [0xDE; 0xAD]%N)
      ++ [ascii_of_N 13; ascii_of_N 10]) :: []) [] =
  Accepted (map ascii_of_N [0xDE; 0xAD]%N) [PrintPatternPrompt] [].
Proof.
  apply (typed_hex_line_accepted (map ascii_of_N [0xDE; 0xAD]%N) (str " ")
           [ascii_of_N 13; ascii_of_N 10] []);
    reflexivity.
Defined.

Lemma trimLeftByte_split (s : list byte) (c : byte) :
  (exists n, s = repeat c n ++ trim.trimLeftByte s c) /\
  hd_error (trim.trimLeftByte s c) <> Some c.
Proof.
  induction s as [|x s [[n IH1] IH2]].
  - split; [exists O; reflexivity | discriminate].
  - cbn [trim.trimLeftByte]. destruct (Ascii.eqb x c) eqn:E.
    + apply Ascii.eqb_eq in E. subst x. split; [|exact IH2].
      exists (S n). cbn [repeat app]. now rewrite <- IH1.
    + split; [exists O; reflexivity|].
      apply Ascii.eqb_neq in E. cbn [hd_error]. congruence.
Qed.

Lemma trimLeftByte_clean (s : list byte) (c : byte) :
  hd_error s <> Some c -> trim.trimLeftByte s c = s.
Proof.
  destruct s as [|x s]; [reflexivity|]. cbn [hd_error trim.trimLeftByte].
  intros H. destruct (Ascii.eqb x c) eqn:E; [|reflexivity].
  apply Ascii.eqb_eq in E. congruence.
Qed.

Lemma trimLeftByte_end (s : list byte) (c : byte) :
  hd_error (rev s) <> Some c ->
  hd_error (rev (trim.trimLeftByte s c)) <> Some c.
Proof.
  intros H. destruct (trimLeftByte_split s c) as [[n Hs] _].
  destruct (trim.trimLeftByte s c) as [|x t] eqn:E; [discriminate|].
  rewrite Hs, rev_app_distr in H.
  destruct (rev (x :: t)) as [|y r] eqn:Er.
  - apply (f_equal (@List.length byte)) in Er.
    rewrite length_rev in Er. discriminate.
  - exact H.
Qed.

(** X22. After the loop over the paths no path begins or ends with a
    double quote. *)
Theorem quotes_trimmed (files : list (list byte)) :
  Forall clean (trimQuotes files).
Proof.
  unfold trimQuotes. rewrite Forall_map. apply Forall_forall.
  intros p _. unfold clean, trim.TrimByte. split.
  - apply trimLeftByte_split.
  - apply trimLeftByte_end. unfold trim.trimRightByte.
    rewrite rev_involutive. apply trimLeftByte_split.
Qed.

Lemma TrimByte_clean (p : list byte) :
  clean p -> trim.TrimByte p quote = p.
Proof.
  intros [H1 H2]. unfold trim.TrimByte, trim.trimRightByte.
  rewrite (trimLeftByte_clean (rev p)) by exact H2.
  rewrite rev_involutive. apply trimLeftByte_clean, H1.
Qed.

Lemma trimLeftByte_same (s : list byte) (c : byte) :
  trim.trimLeftByte (c :: s) c = trim.trimLeftByte s c.
Proof. cbn [trim.trimLeftByte]. now rewrite Ascii.eqb_refl. Qed.

Lemma TrimByte_quoted (p : list byte) :
  clean p -> trim.TrimByte (quote :: p ++ [quote]) quote = p.
Proof.
  intros [H1 H2]. unfold trim.TrimByte, trim.trimRightByte.
  replace (rev (quote :: p ++ [quote]))
    with (quote :: (rev p ++ [quote]))
    by (change (quote :: p ++ [quote]) with ((quote :: p) ++ [quote]);
        rewrite rev_app_distr; reflexivity).
  rewrite trimLeftByte_same.
  destruct p as [|x p]; [reflexivity|].
  rewrite (trimLeftByte_clean (rev (x :: p) ++ [quote])).
  - rewrite rev_app_distr, rev_involutive.
    change (rev [quote] ++ x :: p) with (quote :: x :: p).
    rewrite trimLeftByte_same. apply trimLeftByte_clean, H1.
  - destruct (rev (x :: p)) as [|y r] eqn:Er; [|exact H2].
    apply (f_equal (@List.length byte)) in Er.
    rewrite length_rev in Er. discriminate.
Qed.

(** X23. The loop over the paths strips the pair of double quotes put
    around a path and leaves alone a path that has none at its ends;
    quotes inside a path stay. *)
Theorem quoted_paths_unquoted (files : list (list byte)) :
  Forall clean files ->
  trimQuotes (map (fun p => quote :: p ++ [quote]) files) = files /\
  trimQuotes files = files.
Proof.
  intros H. unfold trimQuotes. split.
  - rewrite map_map. rewrite <- (map_id files) at 2.
    apply map_ext_in. intros p Hp. apply TrimByte_quoted.
    rewrite Forall_forall in H. apply H, Hp.
  - rewrite <- (map_id files) at 2.
    apply map_ext_in. intros p Hp. apply TrimByte_clean.
    rewrite Forall_forall in H. apply H, Hp.
Qed.

Lemma quoted_paths_unquoted_witness :
  trimQuotes (map (fun p => quote :: p ++ [quote]) [str "a b"; str "c" ++ quote :: str "d"])
  = [str "a b"; str "c" ++ quote :: str "d"] /\
  trimQuotes [str "a b"; str "c" ++ quote :: str "d"] = [str "a b"; str "c" ++ quote :: str "d"].
Proof.
  apply (quoted_paths_unquoted [str "a b"; str "c" ++ quote :: str "d"]).
  repeat constructor; discriminate.
Defined.

